(** * silhouette-db data generation: graph generator and partitioner

    A shallow embedding of [data-generation/generate_graph.py] and
    [data-generation/partition_existing_graph.py], and the properties of
    the design document checked against it.

    Conventions of the embedding:
    - a Python [int] is a [Z]; [//] and [%] are [Z.div] and [Z.modulo],
      which floor like Python's, with the division by zero written out;
    - a Python [str] is a [list ascii], a character being a code point
      below 256; file contents are the decoded text;
    - a [dict] is a [gmap], a [set] a [gset]; the iteration order of
      both is left to [map_to_list] and [elements], and no statement
      below depends on it;
    - an exception is a value of [exn], a call that may raise returns
      [exn + A];
    - the interpreter's limit on the number of digits of an integer
      conversion is not modelled. *)

From Stdlib Require Import ZArith Ascii String Lia.
From stdpp Require Import base option list gmap sorting.
From stdpp Require strings.

Local Open Scope Z_scope.

(** ** The Python run time the scripts rely on *)

Module Py.

Abbreviation str := (list ascii).

(** A literal of type [str]. *)
Definition lit (s : string) : str := list_ascii_of_string s.

Inductive exn : Type :=
| ValueError (msg : str)
| KeyError
| ZeroDivisionError
| TypeError
| IndexError
| FileNotFoundError (path : str)
| YAMLError.

Definition res (A : Type) : Type := exn + A.

Definition ret {A} (a : A) : res A := inr a.
Definition raise {A} (e : exn) : res A := inl e.
Definition bind {A B} (c : res A) (k : A -> res B) : res B :=
  match c with
  | inl e => inl e
  | inr a => k a
  end.

(** [try: c except ValueError: h] *)
Definition except_ValueError {A} (c : res A) (h : res A) : res A :=
  match c with
  | inl (ValueError _) => h
  | _ => c
  end.

Definition code (c : ascii) : nat := nat_of_ascii c.

(** [str.isspace] on the code points below 256. *)
Definition is_space (c : ascii) : bool :=
  let n := code c in
  ((9 <=? n) && (n <=? 13) || (28 <=? n) && (n <=? 32)
   || (n =? 133) || (n =? 160))%nat.

Definition is_digit (c : ascii) : bool :=
  let n := code c in ((48 <=? n) && (n <=? 57))%nat.

Definition digit_val (c : ascii) : Z := Z.of_nat (code c) - 48.

Definition digit_char (d : Z) : ascii := ascii_of_nat (Z.to_nat (48 + d)).

Definition chr_eqb (a b : ascii) : bool := Ascii.eqb a b.

Fixpoint drop_space (s : str) : str :=
  match s with
  | [] => []
  | c :: s' => if is_space c then drop_space s' else s
  end.

(** [s.strip()] *)
Definition strip (s : str) : str := rev (drop_space (rev (drop_space s))).

(** [s.startswith(c)] for a one-character prefix. *)
Definition startswith (c : ascii) (s : str) : bool :=
  match s with
  | [] => false
  | c' :: _ => chr_eqb c' c
  end.

(** [s.split()]: the maximal runs of characters that are not white space.
    [cur] is the run being read, last character first. *)
Fixpoint split_ws_from (cur : str) (s : str) : list str :=
  match s with
  | [] => match cur with [] => [] | _ => [rev cur] end
  | c :: s' =>
      if is_space c
      then match cur with
           | [] => split_ws_from [] s'
           | _ => rev cur :: split_ws_from [] s'
           end
      else split_ws_from (c :: cur) s'
  end.

Definition split_ws (s : str) : list str := split_ws_from [] s.

(** [s.split(sep)] for a one-character separator: never empty. *)
Fixpoint split_on (sep : ascii) (s : str) : list str :=
  match s with
  | [] => [[]]
  | c :: s' =>
      if chr_eqb c sep then [] :: split_on sep s'
      else match split_on sep s' with
           | h :: t => (c :: h) :: t
           | [] => [[c]]
           end
  end.

(** [l[-1]] *)
Definition last_item {A} (l : list A) : res A :=
  match last l with
  | Some a => ret a
  | None => raise IndexError
  end.

(** The digits of [int(s)]: decimal digits, single underscores allowed
    between two digits. [sep] says that the previous character was not a
    digit. *)
Fixpoint digits_value (acc : Z) (sep : bool) (s : str) : option Z :=
  match s with
  | [] => if sep then None else Some acc
  | c :: s' =>
      if is_digit c then digits_value (10 * acc + digit_val c) false s'
      else if chr_eqb c "_" && negb sep then digits_value acc true s'
      else None
  end.

Definition invalid_literal : exn :=
  ValueError (lit "invalid literal for int() with base 10").

(** [int(s)] *)
Definition int (s : str) : res Z :=
  let body (sign : Z) (ds : str) :=
    match digits_value 0 true ds with
    | Some n => ret (sign * n)
    | None => raise invalid_literal
    end in
  match strip s with
  | c :: ds =>
      if chr_eqb c "-" then body (-1) ds
      else if chr_eqb c "+" then body 1 ds
      else body 1 (c :: ds)
  | [] => body 1 []
  end.

(** The decimal digits of [n >= 0], most significant first, put before
    [acc]. *)
Fixpoint digits_before (fuel : nat) (n : Z) (acc : str) : str :=
  match fuel with
  | O => acc
  | S fuel' =>
      let acc' := digit_char (n mod 10) :: acc in
      if n <? 10 then acc' else digits_before fuel' (n / 10) acc'
  end.

Definition digits (n : Z) : str :=
  digits_before (S (Z.to_nat (Z.log2 n))) n [].

(** [str(n)], which is also how an f-string formats an [int]. *)
Definition str_of_int (n : Z) : str :=
  if n <? 0 then "-"%char :: digits (- n) else digits n.

Definition newline : ascii := "010"%char.
Definition carriage_return : ascii := "013"%char.

(** [for line in f] on a file opened for reading as text: the content is
    cut after each line end, and the line ends [\r\n] and [\r] are read
    as [\n]. [cur] is the line being read, last character first; a last
    line without line end is a line too. *)
Fixpoint lines_from (cur : str) (s : str) : list str :=
  match s with
  | [] => match cur with [] => [] | _ => [rev cur] end
  | c :: s' =>
      if chr_eqb c newline then rev (newline :: cur) :: lines_from [] s'
      else if chr_eqb c carriage_return then
        match s' with
        | c' :: s'' =>
            if chr_eqb c' newline
            then rev (newline :: cur) :: lines_from [] s''
            else rev (newline :: cur) :: lines_from [] s'
        | [] => [rev (newline :: cur)]
        end
      else lines_from (c :: cur) s'
  end.

Definition file_lines (content : str) : list str := lines_from [] content.

End Py.

Import Py.

Definition edge : Type := Z * Z.

(** [a % b] *)
Definition py_mod (a b : Z) : res Z :=
  if b =? 0 then raise ZeroDivisionError else ret (a mod b).

(** [a // b] *)
Definition py_floordiv (a b : Z) : res Z :=
  if b =? 0 then raise ZeroDivisionError else ret (a / b).

(** [range(n)] *)
Definition range (n : Z) : list Z := seqZ 0 n.

(** ** The pseudo-random source

    [random] is the interpreter's module, not code of the repository:
    its generator is a state, set by [random.seed] and advanced by each
    draw. [randbelow n] is the primitive that draws below [n > 0]. *)

Module Random.

Class Source : Type := {
  state : Type;
  seed : Z -> state;
  randbelow : Z -> state -> Z * state
}.

(** What the library promises of a draw. *)
Definition in_range (R : Source) : Prop :=
  forall n g, 0 < n -> 0 <= (randbelow n g).1 < n.

Definition empty_range : exn := ValueError (lit "empty range for randrange()").

(** [random.randint(a, b)], which is [randrange(a, b + 1)]. *)
Definition randint {R : Source} (a b : Z) (g : state) : res Z * state :=
  let width := b + 1 - a in
  if 0 <? width
  then let '(r, g') := randbelow width g in (ret (a + r), g')
  else (raise empty_range, g).

End Random.

(** ** generate_graph.py *)

Module Generate.

Import Random.

Section Sampling.

Context {R : Source}.

Definition capacity_message (num_edges num_vertices max_possible_edges : Z) : str :=
  lit "Cannot generate " ++ str_of_int num_edges ++ lit " edges for "
  ++ str_of_int num_vertices ++ lit " vertices (max: "
  ++ str_of_int max_possible_edges ++ lit ")".

(** The [while len(edges_set) < num_edges] loop. [None]: the loop is
    still running when [fuel] iterations have been made. *)
Fixpoint sample_edges (fuel : nat) (num_vertices num_edges : Z)
    (edges_set : gset edge) (g : state) : option (res (gset edge) * state) :=
  if bool_decide (Z.of_nat (size edges_set) < num_edges) then
    match fuel with
    | O => None
    | S fuel' =>
        match randint 0 (num_vertices - 1) g with
        | (inl e, g1) => Some (inl e, g1)
        | (inr u, g1) =>
            match randint 0 (num_vertices - 1) g1 with
            | (inl e, g2) => Some (inl e, g2)
            | (inr v, g2) =>
                let edges_set' :=
                  if bool_decide (u <> v)
                  then {[ (Z.min u v, Z.max u v) ]} ∪ edges_set
                  else edges_set in
                sample_edges fuel' num_vertices num_edges edges_set' g2
            end
        end
    end
  else Some (inr edges_set, g).

(** [generate_random_graph] up to the end of its [while] loop: the set
    [edges_set] of canonical pairs. [g] is the generator's state at the
    call. *)
Definition generate_edge_set (fuel : nat) (num_vertices num_edges : Z)
    (seed : option Z) (g : state) : option (res (gset edge) * state) :=
  let g0 := match seed with Some s => Random.seed s | None => g end in
  let max_possible_edges := num_vertices * (num_vertices - 1) / 2 in
  if bool_decide (num_edges > max_possible_edges)
  then Some (raise (ValueError
               (capacity_message num_edges num_vertices max_possible_edges)), g0)
  else sample_edges fuel num_vertices num_edges ∅ g0.

(** The last loop: both directions of each pair. *)
Definition both_directions (pairs : list edge) : list edge :=
  flat_map (fun '(u, v) => [(u, v); (v, u)]) pairs.

Definition generate_random_graph (fuel : nat) (num_vertices num_edges : Z)
    (seed : option Z) (g : state) : option (res (list edge) * state) :=
  match generate_edge_set fuel num_vertices num_edges seed g with
  | None => None
  | Some (inl e, g') => Some (inl e, g')
  | Some (inr edges_set, g') => Some (ret (both_directions (elements edges_set)), g')
  end.

End Sampling.

(** [int(worker_str.split('-')[-1])] *)
Definition worker_index (worker_str : str) : res Z :=
  bind (last_item (split_on "-" worker_str)) int.

(** One turn of the loop over [custom_assignment.items()]. [worker_index]
    raises [ValueError] or [IndexError] only, which the loop passes
    over. *)
Definition apply_override (num_workers : Z) (vertex_id : Z) (worker_str : str)
    (assignment : gmap Z Z) : gmap Z Z :=
  match worker_index worker_str with
  | inr worker_idx =>
      if bool_decide (0 <= worker_idx < num_workers)
      then <[vertex_id := worker_idx]> assignment
      else assignment
  | inl _ => assignment
  end.

(** One turn of the loop over [range(num_vertices)]. *)
Definition fill_vertex (num_workers : Z) (acc : res (gmap Z Z)) (vertex_id : Z)
    : res (gmap Z Z) :=
  bind acc (fun assignment =>
    match assignment !! vertex_id with
    | Some _ => ret assignment
    | None =>
        bind (py_mod vertex_id num_workers) (fun w =>
        ret (<[vertex_id := w]> assignment))
    end).

(** [custom_assignment] is [None] when the argument is left out; an empty
    dictionary is as good as none. *)
Definition assign_vertices (num_vertices num_workers : Z)
    (custom_assignment : option (gmap Z str)) : res (gmap Z Z) :=
  let assignment :=
    match custom_assignment with
    | Some custom => map_fold (apply_override num_workers) ∅ custom
    | None => ∅
    end in
  foldl (fill_vertex num_workers) (ret assignment) (range num_vertices).

(** [{i: [] for i in range(num_workers)}] *)
Definition empty_buckets (num_workers : Z) : gmap Z (list edge) :=
  list_to_map ((fun i => (i, [])) <$> range num_workers).

(** One turn of the loop of [partition_edges]; a missing key of either
    dictionary is a [KeyError]. *)
Definition place_edge (vertex_assignment : gmap Z Z)
    (acc : res (gmap Z (list edge))) (e : edge) : res (gmap Z (list edge)) :=
  bind acc (fun partitioned =>
    match vertex_assignment !! e.1 with
    | None => raise KeyError
    | Some worker_idx =>
        match partitioned !! worker_idx with
        | None => raise KeyError
        | Some bucket => ret (<[worker_idx := bucket ++ [e]]> partitioned)
        end
    end).

Definition partition_edges (edges : list edge) (vertex_assignment : gmap Z Z)
    (num_workers : Z) : res (gmap Z (list edge)) :=
  foldl (place_edge vertex_assignment) (ret (empty_buckets num_workers)) edges.

(** The text [write_edge_file] writes: a line [u v] per edge. *)
Definition edge_line (e : edge) : str :=
  str_of_int e.1 ++ lit " " ++ str_of_int e.2 ++ [newline].

Definition edge_file_text (edges : list edge) : str :=
  concat (edge_line <$> edges).

End Generate.

(** ** Files and the standard output

    A file system is a map from paths to texts; directories are not
    modelled ([mkdir] and [os.makedirs] with [exist_ok] change nothing
    here). What a script prints is kept as a list of messages. *)

Module IO.

Record world (msg : Type) : Type := World {
  files : gmap str str;
  printed : list msg
}.
Arguments World {msg} _ _.
Arguments files {msg} _.
Arguments printed {msg} _.

(** A command changes the world and returns or raises; the world stays
    as it is when the exception is raised. *)
Definition cmd (msg A : Type) : Type := world msg -> res A * world msg.

Definition ret {msg A} (a : A) : cmd msg A := fun w => (inr a, w).
Definition raise {msg A} (e : exn) : cmd msg A := fun w => (inl e, w).
Definition bind {msg A B} (c : cmd msg A) (k : A -> cmd msg B) : cmd msg B :=
  fun w =>
    match c w with
    | (inl e, w') => (inl e, w')
    | (inr a, w') => k a w'
    end.
Definition lift {msg A} (r : res A) : cmd msg A := fun w => (r, w).

Definition print {msg} (m : msg) : cmd msg unit :=
  fun w => (inr tt, World (files w) (printed w ++ [m])).

(** [open(path, 'w')] and the writes until the file is closed. *)
Definition write_text {msg} (path text : str) : cmd msg unit :=
  fun w => (inr tt, World (<[path := text]> (files w)) (printed w)).

(** [open(path, 'r')] and the read. *)
Definition read_text {msg} (path : str) : cmd msg str :=
  fun w =>
    match files w !! path with
    | Some text => (inr text, w)
    | None => (inl (FileNotFoundError path), w)
    end.

(** [os.path.exists(path)] *)
Definition exists_ {msg} (path : str) : cmd msg bool :=
  fun w => (inr (bool_decide (is_Some (files w !! path))), w).

(** [for x in xs: body(x)] *)
Fixpoint for_each {msg A} (xs : list A) (body : A -> cmd msg unit) : cmd msg unit :=
  match xs with
  | [] => ret tt
  | x :: xs' => bind (body x) (fun _ => for_each xs' body)
  end.

(** A file of a directory: [os.path.join(dir, name)] and [Path(dir) / name]
    for a relative [name], up to the normalisation of the path. *)
Definition join (dir name : str) : str :=
  match dir with
  | [] => name
  | _ => dir ++ lit "/" ++ name
  end.

End IO.

Declare Scope cmd_scope.
Delimit Scope cmd_scope with cmd.
Notation "x <- c ;; k" := (IO.bind c (fun x => k))
  (at level 100, c at next level, right associativity) : cmd_scope.
Notation "c ;; k" := (IO.bind c (fun _ => k))
  (at level 100, right associativity) : cmd_scope.

Module GenerateMain.

Import Random Generate IO.

Record arguments : Type := Args {
  args_num_vertices : option Z;
  args_num_edges : option Z;
  args_seed : option Z;
  args_output_dir : str;
  args_global_graph : option str
}.

(** What [main] reads of the loaded configuration; [None] is an absent
    key. An entry of [graph_config.edges] is its [u] and its [v]. *)
Record configuration : Type := Configuration {
  worker_config_num_workers : option Z;
  worker_config_vertex_assignment : option (gmap Z str);
  graph_config_num_vertices : option Z;
  graph_config_edges : list (option Z * option Z)
}.

Inductive message : Type :=
| Generating (num_vertices num_edges : Z)
| NumberOfWorkers (num_workers : Z)
| Generated (count : nat)
| VertexAssignmentHeader
| WorkerVertices (worker_idx : Z) (count : nat)
| WritingTo (output_dir : str)
| WorkerFile (worker_idx : Z) (path : str) (count : nat)
| GlobalGraphWritten (path : str)
| Complete.

Definition truthy_int (x : option Z) : option Z :=
  match x with
  | Some n => if n =? 0 then None else Some n
  | None => None
  end.

Definition truthy_str (x : option str) : option str :=
  match x with
  | Some [] => None
  | _ => x
  end.

Definition resolve_num_vertices (config : configuration) (args : arguments) : Z :=
  match truthy_int (args_num_vertices args) with
  | Some n => n
  | None =>
      match graph_config_num_vertices config with
      | Some n => n
      | None =>
          match graph_config_edges config with
          | [] => 100
          | edges_config =>
              let all_vertices : gset (option Z) :=
                list_to_set (flat_map (fun e => [e.1; e.2]) edges_config) in
              Z.of_nat (size all_vertices)
          end
      end
  end.

Definition resolve_num_edges (num_vertices : Z) (args : arguments) : Z :=
  match truthy_int (args_num_edges args) with
  | Some n => n
  | None => num_vertices * 2
  end.

Definition worker_vertex_counts (vertex_assignment : gmap Z Z) : gmap Z nat :=
  map_fold (fun _ worker_idx counts =>
              <[worker_idx := S (default O (counts !! worker_idx))]> counts)
           ∅ vertex_assignment.

Definition write_edge_file (filepath : str) (edges : list edge) : cmd message unit :=
  write_text filepath (edge_file_text edges).

Local Open Scope cmd_scope.

(** [main], from the loaded configuration on, once [edges] are
    generated. *)
Definition write_partitions (config : configuration) (args : arguments)
    (num_vertices : Z) (edges : list edge) : cmd message unit :=
  let num_workers := default 1 (worker_config_num_workers config) in
  let custom_vertex_assignment :=
    Some (default ∅ (worker_config_vertex_assignment config)) in
  print (Generated (length edges)) ;;
  vertex_assignment <-
    lift (assign_vertices num_vertices num_workers custom_vertex_assignment) ;;
  let counts := worker_vertex_counts vertex_assignment in
  print VertexAssignmentHeader ;;
  for_each (merge_sort Z.le (map_to_list counts).*1)
    (fun worker_idx =>
       print (WorkerVertices worker_idx (default O (counts !! worker_idx)))) ;;
  partitioned <- lift (partition_edges edges vertex_assignment num_workers) ;;
  let output_dir := args_output_dir args in
  print (WritingTo output_dir) ;;
  for_each (range num_workers)
    (fun worker_idx =>
       worker_edges <-
         lift (match partitioned !! worker_idx with
               | Some b => Py.ret b
               | None => Py.raise KeyError
               end) ;;
       let filepath := join output_dir (str_of_int (worker_idx + 1) ++ lit ".txt") in
       write_edge_file filepath worker_edges ;;
       print (WorkerFile worker_idx filepath (length worker_edges))) ;;
  match truthy_str (args_global_graph args) with
  | Some global_path =>
      write_edge_file global_path edges ;;
      print (GlobalGraphWritten global_path)
  | None => ret tt
  end ;;
  print Complete.

(** [main] after the arguments are parsed and the configuration is
    loaded. [None]: the generation is still running after [fuel]
    iterations. *)
Definition main {R : Source} (fuel : nat) (config : configuration) (args : arguments)
    (g : state) (w : world message) : option (res unit * state * world message) :=
  let num_workers := default 1 (worker_config_num_workers config) in
  let num_vertices := resolve_num_vertices config args in
  let num_edges := resolve_num_edges num_vertices args in
  let w1 := (print (Generating num_vertices num_edges) ;;
             print (NumberOfWorkers num_workers)) w in
  match generate_random_graph fuel num_vertices num_edges (args_seed args) g with
  | None => None
  | Some (inl e, g') => Some (inl e, g', w1.2)
  | Some (inr edges, g') =>
      let '(r, w2) := write_partitions config args num_vertices edges w1.2 in
      Some (r, g', w2)
  end.

End GenerateMain.

(** ** partition_existing_graph.py *)

Module Partition.

Import IO.

(** [range(a, b)] *)
Definition range_from (a b : Z) : list Z := seqZ a (b - a).

(** One turn of the loop of [calculate_workloads], on [(offset, workloads)]. *)
Definition workload_step (chunk extra num_workers : Z)
    (acc : Z * list (list Z)) (p : Z) : Z * list (list Z) :=
  let '(offset, workloads) := acc in
  let workload := if p =? num_workers then chunk + extra else chunk in
  let node_ids := range_from offset (offset + workload) in
  (offset + workload, workloads ++ [node_ids]).

Definition calculate_workloads (n num_workers : Z) : res (list (list Z)) :=
  Py.bind (py_floordiv n num_workers) (fun chunk =>
  Py.bind (py_mod n num_workers) (fun extra =>
  Py.ret (foldl (workload_step chunk extra num_workers) (0, [])
                (range_from 1 (num_workers + 1))).2)).

(** The three variables of the loop of [load_graph_from_file]. *)
Record loaded : Type := Loaded {
  adjacency_dict : gmap Z (gset Z);
  max_vertex : Z;
  total_edges : Z
}.

(** [adjacency_dict[u].add(v)] on a [defaultdict(set)]. *)
Definition add_neighbor (u v : Z) (adjacency : gmap Z (gset Z)) : gmap Z (gset Z) :=
  <[u := default ∅ (adjacency !! u) ∪ {[v]}]> adjacency.

(** The [try] block of the loop, on the tokens of a line. *)
Definition parse_edge (parts : list str) : res edge :=
  match parts with
  | p0 :: p1 :: _ =>
      Py.bind (int p0) (fun u =>
      Py.bind (int p1) (fun v => Py.ret (u, v)))
  | _ => Py.raise IndexError
  end.

(** One turn of the loop over the lines of the file. [int] raises
    [ValueError] only, and the line is passed over. *)
Definition load_line (acc : loaded) (line : str) : loaded :=
  let line := strip line in
  if bool_decide (line = []) || startswith "#" line then acc
  else
    let parts := split_ws line in
    if bool_decide (length parts < 2)%nat then acc
    else
      match parse_edge parts with
      | inr (u, v) =>
          Loaded (add_neighbor u v (adjacency_dict acc))
                 (Z.max (Z.max (max_vertex acc) u) v)
                 (total_edges acc + 1)
      | inl _ => acc
      end.

(** [load_graph_from_file], on the text of the file. *)
Definition load_graph (content : str) : gmap Z (gset Z) * Z * Z :=
  let r := foldl load_line (Loaded ∅ (-1) 0) (file_lines content) in
  (adjacency_dict r, max_vertex r + 1, total_edges r).

Definition load_graph_from_file {msg} (filepath : str)
    : cmd msg (gmap Z (gset Z) * Z * Z) :=
  IO.bind (read_text filepath) (fun content => IO.ret (load_graph content)).

(** [partitioned_edges[k].append(e)] on a [defaultdict(list)]. *)
Definition append_edge (k : Z) (e : edge) (partitioned : gmap Z (list edge))
    : gmap Z (list edge) :=
  <[k := default [] (partitioned !! k) ++ [e]]> partitioned.

(** The inner loop of the partitioning, over the neighbours of a vertex. *)
Definition place_neighbor (num_workers vertex_id worker_idx : Z)
    (acc : res (gmap Z (list edge))) (neighbor : Z) : res (gmap Z (list edge)) :=
  Py.bind acc (fun partitioned =>
  let partitioned := append_edge worker_idx (vertex_id, neighbor) partitioned in
  Py.bind (py_mod neighbor num_workers) (fun neighbor_worker =>
  Py.ret (append_edge neighbor_worker (neighbor, vertex_id) partitioned))).

(** The outer loop, over the items of [adjacency_dict]. *)
Definition place_vertex (num_workers : Z)
    (acc : res (gmap Z (list edge))) (item : Z * gset Z) : res (gmap Z (list edge)) :=
  Py.bind acc (fun partitioned =>
  Py.bind (py_mod item.1 num_workers) (fun worker_idx =>
  foldl (place_neighbor num_workers item.1 worker_idx)
        (Py.ret partitioned) (elements item.2))).

Definition partition_adjacency (adjacency : gmap Z (gset Z)) (num_workers : Z)
    : res (gmap Z (list edge)) :=
  foldl (place_vertex num_workers) (Py.ret ∅) (map_to_list adjacency).

(** The value of a loaded YAML document; the keys of its mappings are
    taken to be strings. *)
Unset Elimination Schemes.
Inductive pyval : Type :=
| PyNone
| PyBool (b : bool)
| PyInt (n : Z)
| PyStr (s : str)
| PyList (l : list pyval)
| PyDict (d : gmap str pyval).
Set Elimination Schemes.

Definition worker_label (worker_idx : Z) : str :=
  lit "worker-" ++ str_of_int worker_idx.

(** The loop that builds [vertex_assignment], keyed by [str(vertex_id)]. *)
Definition label_vertex (num_workers : Z) (acc : res (gmap str str)) (vertex_id : Z)
    : res (gmap str str) :=
  Py.bind acc (fun vertex_assignment =>
  Py.bind (py_mod vertex_id num_workers) (fun worker_idx =>
  Py.ret (<[str_of_int vertex_id := worker_label worker_idx]> vertex_assignment))).

Definition generate_vertex_assignment (graph_size num_workers : Z) : res (gmap str str) :=
  foldl (label_vertex num_workers) (Py.ret ∅) (range graph_size).

(** The update of the loaded [config]: a test of membership or an item
    assignment on a value that is no dictionary is a [TypeError]. *)
Definition update_config (config : pyval) (vertex_assignment : gmap str str)
    (num_workers : Z) : res pyval :=
  match config with
  | PyDict d =>
      let d1 :=
        match d !! lit "worker_config" with
        | None => <[lit "worker_config" := PyDict ∅]> d
        | Some _ => d
        end in
      match d1 !! lit "worker_config" with
      | Some (PyDict wc) =>
          let wc1 := <[lit "vertex_assignment" := PyDict (PyStr <$> vertex_assignment)]> wc in
          let wc2 := <[lit "num_workers" := PyInt num_workers]> wc1 in
          Py.ret (PyDict (<[lit "worker_config" := PyDict wc2]> d1))
      | _ => Py.raise TypeError
      end
  | _ => Py.raise TypeError
  end.

Inductive message : Type :=
| Loading (input_file : str)
| InferredSize (graph_size : Z)
| ProvidedSize (graph_size : Z)
| TotalEdgesInFile (total_edges : Z)
| PartitioningFor (num_workers : Z)
| PartitionWritten (worker_idx : Z) (count unique : nat)
| TotalWritten (count : nat)
| WrittenTo (output_dir : str)
| AssignmentGenerated (count : nat)
| UpdatingConfig (config_file : str)
| ConfigUpdated (config_file : str)
| WarningConfigNotFound (config_file : str)
| ErrorInputMissing (input_file : str).

Section Yaml.

(** [yaml.safe_load] on the text of a file and [yaml.dump]: the library's. *)
Variable yaml_safe_load : str -> res pyval.
Variable yaml_dump : pyval -> str.

Definition save_config (config_file : str) (config : pyval) : cmd message unit :=
  write_text config_file (yaml_dump config).

Local Open Scope cmd_scope.

(** The loop that writes the files [1.txt], [2.txt], ...; it returns
    [total_written]. *)
Fixpoint write_partitions (output_dir : str) (partitioned : gmap Z (list edge))
    (workers : list Z) (total_written : nat) : cmd message nat :=
  match workers with
  | [] => ret total_written
  | worker_idx :: rest =>
      let output_file := join output_dir (str_of_int (worker_idx + 1) ++ lit ".txt") in
      let edges := default [] (partitioned !! worker_idx) in
      write_text output_file (Generate.edge_file_text edges) ;;
      let unique_edges := size (list_to_set edges : gset edge) in
      print (PartitionWritten worker_idx (length edges) unique_edges) ;;
      write_partitions output_dir partitioned rest (total_written + length edges)%nat
  end.

(** The end of [partition_graph]: the update of the configuration file. *)
Definition publish (config_file : option str) (vertex_assignment : gmap str str)
    (num_workers : Z) : cmd message unit :=
  match GenerateMain.truthy_str config_file with
  | Some path =>
      found <- exists_ path ;;
      if found : bool then
        print (UpdatingConfig path) ;;
        text <- read_text path ;;
        config <- lift (yaml_safe_load text) ;;
        config' <- lift (update_config config vertex_assignment num_workers) ;;
        save_config path config' ;;
        print (ConfigUpdated path)
      else print (WarningConfigNotFound path)
  | None => ret tt
  end.

Definition partition_graph (input_file output_dir : str) (num_workers : Z)
    (graph_size : option Z) (config_file : option str) : cmd message unit :=
  print (Loading input_file) ;;
  loaded <- load_graph_from_file input_file ;;
  let '(adjacency_dict, inferred_size, total_edges) := loaded in
  let size := default inferred_size graph_size in
  print (match graph_size with
         | None => InferredSize size
         | Some _ => ProvidedSize size
         end) ;;
  print (TotalEdgesInFile total_edges) ;;
  print (PartitioningFor num_workers) ;;
  workloads <- lift (calculate_workloads size num_workers) ;;
  partitioned_edges <- lift (partition_adjacency adjacency_dict num_workers) ;;
  total_written <- write_partitions output_dir partitioned_edges (range num_workers) O ;;
  print (TotalWritten total_written) ;;
  print (WrittenTo output_dir) ;;
  vertex_assignment <- lift (generate_vertex_assignment size num_workers) ;;
  print (AssignmentGenerated (base.size vertex_assignment)) ;;
  publish config_file vertex_assignment num_workers.

(** [main] after the arguments are parsed; it returns the exit status. *)
Definition main (input_file : str) (num_workers : Z) (output_dir : str)
    (graph_size : option Z) (config : option str) : cmd message Z :=
  found <- exists_ input_file ;;
  if found : bool then
    partition_graph input_file output_dir num_workers graph_size config ;;
    ret 0
  else
    print (ErrorInputMissing input_file) ;;
    ret 1.

End Yaml.

End Partition.

(** ** Notions of the design document

    The words the statements below are written with; none of them is
    code of the scripts. *)

Module Spec.

(** The edges of [edges] whose source vertex is assigned to worker [i],
    in their order. *)
Definition owned_by (vertex_assignment : gmap Z Z) (i : Z) (edges : list edge)
    : list edge :=
  filter (fun e => vertex_assignment !! e.1 = Some i) edges.

(** All buckets of a partition, one after the other. *)
Definition all_buckets (p : gmap Z (list edge)) (num_workers : Z) : list edge :=
  concat ((fun i => default [] (p !! i)) <$> range num_workers).

(** The label given to vertex [v] by the overrides, if any. *)
Definition override (custom_assignment : option (gmap Z str)) (v : Z) : option str :=
  custom_assignment ≫= (fun custom => custom !! v).

(** The worker index a label stands for, when the label parses and the
    index is one of [num_workers] workers. *)
Definition valid_override (num_workers : Z) (worker_str : str) : option Z :=
  match Generate.worker_index worker_str with
  | inr w => if bool_decide (0 <= w < num_workers) then Some w else None
  | inl _ => None
  end.

(** The pair of a turn of the sampling loop for [num_vertices >= 1]: two
    draws below [num_vertices]. *)
Definition draw_pair {R : Random.Source} (num_vertices : Z) (g : Random.state)
    : (Z * Z) * Random.state :=
  let '(u, g1) := Random.randbelow num_vertices g in
  let '(v, g2) := Random.randbelow num_vertices g1 in
  ((u, v), g2).

(** The generator after [n] turns of the loop. *)
Definition state_after {R : Random.Source} (num_vertices : Z) (n : nat)
    (g : Random.state) : Random.state :=
  Nat.iter n (fun g' => (draw_pair num_vertices g').2) g.

(** The canonical form of a pair: smaller vertex first. *)
Definition canonical (p : Z * Z) : edge := (Z.min p.1 p.2, Z.max p.1 p.2).

(** A generator that, started at [g], goes on to draw every pair of two
    different vertices: what makes the rejection sampling end. *)
Definition fair {R : Random.Source} (num_vertices : Z) (g : Random.state) : Prop :=
  forall (n : nat) (a b : Z), 0 <= a -> a < b -> b < num_vertices ->
    exists m : nat, (n <= m)%nat
      /\ canonical (draw_pair num_vertices (state_after num_vertices m g)).1 = (a, b).

(** The canonical pairs over the vertices below [n], by larger vertex. *)
Fixpoint pairs_below (n : nat) : list edge :=
  match n with
  | O => []
  | S n' => pairs_below n' ++ ((fun a => (a, Z.of_nat n')) <$> seqZ 0 (Z.of_nat n'))
  end.

Definition canonical_pairs (num_vertices : Z) : gset edge :=
  list_to_set (pairs_below (Z.to_nat num_vertices)).

(** A generator to run the scripts with: the [k]-th draw after the
    seeding reads the counter [k], and two draws in a row go through all
    the pairs. It is no model of the interpreter's generator. *)
Definition counting_randbelow (n : Z) (k : nat) : Z * nat :=
  let j := Z.of_nat (Nat.div2 k) in
  (if Nat.even k then j mod n else (j / n) mod n, S k).

Definition counting : Random.Source := {|
  Random.state := nat;
  Random.seed s := (2 * Z.to_nat (Z.abs s))%nat;
  Random.randbelow := counting_randbelow
|}.

(** A turn of the sampling loop on the set, for the pair [p] drawn. *)
Definition add_pair (p : Z * Z) (s : gset edge) : gset edge :=
  if bool_decide (p.1 <> p.2) then {[ canonical p ]} ∪ s else s.

(** The edge list of the scenario of the design document: the lines
    [0 1], [1 2] and [2 0]. *)
Definition scenario_text : str :=
  lit "0 1" ++ [newline] ++ lit "1 2" ++ [newline] ++ lit "2 0" ++ [newline].

(** The edges an adjacency dictionary stands for, in the order of the
    loops of [partition_graph]. *)
Definition adjacency_edges (adjacency : gmap Z (gset Z)) : list edge :=
  map_to_list adjacency ≫= (fun item => (fun v => (item.1, v)) <$> elements item.2).

(** A line the loader reads an edge [(u, v)] from. *)
Definition valid_line (line : str) (u v : Z) : Prop :=
  let l := strip line in
  l <> [] /\ startswith "#" l = false
  /\ exists t0 t1 rest, split_ws l = t0 :: t1 :: rest
       /\ int t0 = inr u /\ int t1 = inr v.

(** A line that is empty, a comment, has fewer than two tokens, or whose
    first two tokens are not both integers. *)
Definition skipped_line (line : str) : Prop :=
  let l := strip line in
  l = [] \/ startswith "#" l = true \/ (length (split_ws l) < 2)%nat
  \/ exists t0 t1 rest, split_ws l = t0 :: t1 :: rest
       /\ ((exists e, int t0 = inl e) \/ (exists e, int t1 = inl e)).

(** The edge of a line, when the loader reads one from it. *)
Definition line_edge (line : str) : option edge :=
  let l := strip line in
  if bool_decide (l = []) || startswith "#" l then None
  else match split_ws l with
       | t0 :: t1 :: _ =>
           match int t0, int t1 with
           | inr u, inr v => Some (u, v)
           | _, _ => None
           end
       | _ => None
       end.

(** A character of the decimal writing of an integer. *)
Definition numeric (c : ascii) : Prop := is_digit c = true \/ c = "-"%char.

(** The value of a sequence of digits read after [acc]. *)
Definition digits_fold (acc : Z) (ds : str) : Z :=
  fold_left (fun a c => 10 * a + digit_val c) ds acc.

(** The turn of the loader's loop for a line that holds the edge [e]. *)
Definition read_edge (acc : Partition.loaded) (e : edge) : Partition.loaded :=
  Partition.Loaded
    (Partition.add_neighbor e.1 e.2 (Partition.adjacency_dict acc))
    (Z.max (Z.max (Partition.max_vertex acc) e.1) e.2)
    (Partition.total_edges acc + 1).

(** [v] is a neighbour of [u] in an adjacency dictionary. *)
Definition neighbor (adjacency : gmap Z (gset Z)) (u v : Z) : Prop :=
  exists ns, adjacency !! u = Some ns /\ v ∈ ns.


(** The worker that owns an edge in [partition_graph]: its source vertex
    modulo the worker count. *)
Definition owner (num_workers : Z) (e : edge) : Z := e.1 mod num_workers.

(** An edge whose source vertex the assignment maps to one of
    [num_workers] workers. *)
Definition placeable (vertex_assignment : gmap Z Z) (num_workers : Z) (e : edge)
    : Prop :=
  exists w, vertex_assignment !! e.1 = Some w /\ 0 <= w < num_workers.

(** The bucket of worker [i] in a [defaultdict(list)]: empty when the
    key is missing. *)
Definition bucket (p : gmap Z (list edge)) (i : Z) : list edge :=
  default [] (p !! i).

(** The number of times [e] is in [l]. *)
Definition occurrences (e : edge) (l : list edge) : nat :=
  length (filter (fun e' => e' = e) l).

End Spec.

(** * Properties *)

(** ** The partitioner of generate_graph.py *)

Module PartitionEdges.

Import Generate Spec.

Lemma elem_of_range (i n : Z) : i ∈ range n <-> 0 <= i < n.
Proof. unfold range. rewrite elem_of_seqZ. lia. Qed.

Lemma NoDup_range (n : Z) : NoDup (range n).
Proof. apply NoDup_seqZ. Qed.

Lemma empty_buckets_lookup (num_workers i : Z) :
  empty_buckets num_workers !! i
  = if bool_decide (0 <= i < num_workers) then Some [] else None.
Proof.
  unfold empty_buckets. case_bool_decide as Hi.
  - apply elem_of_list_to_map.
    + rewrite <- list_fmap_compose. simpl. rewrite list_fmap_id.
      apply NoDup_range.
    + apply list_elem_of_fmap. exists i. split; [done|].
      by apply elem_of_range.
  - apply not_elem_of_list_to_map. rewrite <- list_fmap_compose. simpl.
    rewrite list_fmap_id. by rewrite elem_of_range.
Qed.

Lemma partition_edges_lookup (edges : list edge) (va : gmap Z Z) (num_workers : Z) :
  (forall e, e ∈ edges -> exists w, va !! e.1 = Some w /\ 0 <= w < num_workers) ->
  exists p, partition_edges edges va num_workers = inr p
    /\ forall i, p !! i = if bool_decide (0 <= i < num_workers)
                          then Some (owned_by va i edges) else None.
Proof.
  unfold partition_edges.
  induction edges as [|e edges IH] using rev_ind; intros Hva.
  - exists (empty_buckets num_workers). split; [done|].
    intros i. by rewrite empty_buckets_lookup.
  - destruct IH as (p & Hp & Hlook).
    { intros e' He'. apply Hva. apply elem_of_app. by left. }
    destruct (Hva e) as (w & Hw & Hrange).
    { apply elem_of_app. right. by apply list_elem_of_singleton. }
    rewrite foldl_app. simpl. rewrite Hp. unfold place_edge. simpl.
    rewrite Hw, Hlook. rewrite bool_decide_eq_true_2 by done.
    eexists. split; [reflexivity|].
    intros i. unfold owned_by. rewrite filter_app.
    destruct (decide (i = w)) as [->|Hne].
    + rewrite lookup_insert_eq. rewrite bool_decide_eq_true_2 by done.
      rewrite filter_cons_True by done. by rewrite filter_nil.
    + rewrite lookup_insert_ne by done. rewrite Hlook.
      rewrite filter_cons_False by congruence.
      rewrite filter_nil. by rewrite app_nil_r.
Qed.

(** Putting [e] at the head of one bucket of a family puts it into the
    whole, up to the order. *)
Lemma concat_cons_one {A} (f : Z -> list A) (e : A) (w : Z) (I : list Z) :
  NoDup I -> w ∈ I ->
  concat ((fun i => if decide (i = w) then e :: f i else f i) <$> I)
  ≡ₚ e :: concat (f <$> I).
Proof.
  induction I as [|j I IH]; intros Hnd Hw.
  - by apply elem_of_nil in Hw.
  - apply NoDup_cons in Hnd as [Hj Hnd]. simpl.
    destruct (decide (j = w)) as [->|Hne].
    + simpl.
      apply Permutation_skip, Permutation_app_head.
      match goal with |- ?a ≡ₚ ?b => replace a with b; [done|] end.
      f_equal. apply list_fmap_ext. intros k i Hi.
      apply list_elem_of_lookup_2 in Hi.
      destruct (decide (i = w)) as [->|]; [done|done].
    + apply elem_of_cons in Hw as [->|Hw]; [done|].
      rewrite IH by done. by rewrite Permutation_middle.
Qed.

Lemma owned_by_covers (va : gmap Z Z) (num_workers : Z) (edges : list edge) :
  (forall e, e ∈ edges -> exists w, va !! e.1 = Some w /\ 0 <= w < num_workers) ->
  concat ((fun i => owned_by va i edges) <$> range num_workers) ≡ₚ edges.
Proof.
  induction edges as [|e edges IH]; intros Hva.
  - unfold owned_by. simpl. induction (range num_workers); simpl; auto.
  - destruct (Hva e) as (w & Hw & Hrange); [by left|].
    transitivity (e :: concat ((fun i => owned_by va i edges) <$> range num_workers)).
    2: { apply Permutation_skip, IH. intros e' He'. apply Hva. by right. }
    rewrite <- (concat_cons_one (fun i => owned_by va i edges) e w)
      by (apply NoDup_range || by apply elem_of_range).
    match goal with |- ?a ≡ₚ ?b => replace a with b; [done|] end.
    f_equal. apply list_fmap_ext. intros k i _.
    unfold owned_by. destruct (decide (i = w)) as [->|Hne].
    + by rewrite filter_cons_True.
    + rewrite filter_cons_False; [done|congruence].
Qed.

(** C1, as amended. For every sequence of ordered edges, every worker
    count above zero and every assignment that maps each source vertex
    of the sequence to a worker index in [0, num_workers):
    [partition_edges] returns a partition that has a bucket for exactly
    the worker indices in [0, num_workers), where an edge [(u, v)] is
    only in the bucket of [vertex_assignment[u]], and whose buckets
    together are the input, as multisets. *)
Theorem partition_edges_complete (edges : list edge) (va : gmap Z Z) (num_workers : Z) :
  0 < num_workers ->
  (forall u v, (u, v) ∈ edges -> exists w, va !! u = Some w /\ 0 <= w < num_workers) ->
  exists p, partition_edges edges va num_workers = inr p
    /\ (forall i, is_Some (p !! i) <-> 0 <= i < num_workers)
    /\ (forall i bucket u v, p !! i = Some bucket -> (u, v) ∈ bucket ->
          (u, v) ∈ edges /\ va !! u = Some i)
    /\ all_buckets p num_workers ≡ₚ edges.
Proof.
  intros _ Hva.
  assert (Hva' : forall e, e ∈ edges ->
            exists w, va !! e.1 = Some w /\ 0 <= w < num_workers).
  { intros [u v] He. by apply (Hva u v). }
  destruct (partition_edges_lookup edges va num_workers Hva') as (p & Hp & Hlook).
  exists p. split; [done|]. split; [|split].
  - intros i. rewrite Hlook. case_bool_decide; split; intros H'; try done.
    all: by destruct H' as [? ?].
  - intros i bucket u v Hi Huv. rewrite Hlook in Hi.
    case_bool_decide; [|done]. injection Hi as <-.
    unfold owned_by in Huv. apply list_elem_of_filter in Huv as [Hu Hin].
    done.
  - unfold all_buckets.
    etransitivity; [|exact (owned_by_covers va num_workers edges Hva')].
    match goal with |- ?a ≡ₚ ?b => replace a with b; [done|] end.
    f_equal. apply list_fmap_ext. intros k i Hi.
    apply list_elem_of_lookup_2, elem_of_range in Hi.
    rewrite Hlook. by rewrite bool_decide_eq_true_2.
Qed.

Lemma partition_edges_complete_witness :
  exists p, partition_edges [(0, 1); (1, 0); (2, 1)] {[0 := 0; 1 := 1; 2 := 0]} 2 = inr p
    /\ (forall i, is_Some (p !! i) <-> 0 <= i < 2)
    /\ (forall i bucket u v, p !! i = Some bucket -> (u, v) ∈ bucket ->
          (u, v) ∈ [(0, 1); (1, 0); (2, 1)]
          /\ ({[0 := 0; 1 := 1; 2 := 0]} : gmap Z Z) !! u = Some i)
    /\ all_buckets p 2 ≡ₚ [(0, 1); (1, 0); (2, 1)].
Proof.
  apply partition_edges_complete; [lia|].
  intros u v Huv.
  repeat (apply elem_of_cons in Huv as [[= -> ->]|Huv];
          [eexists; split; [reflexivity|lia]|]).
  by apply elem_of_nil in Huv.
Defined.

(** C1 as it is written fails: the assignment below is defined on the
    only source vertex, and the call raises [KeyError], since worker 5
    has no bucket among those of one worker. *)
Lemma partition_edges_unknown_worker :
  (forall u v, (u, v) ∈ [(0, 1)] -> is_Some (({[0 := 5]} : gmap Z Z) !! u))
  /\ 0 < 1
  /\ partition_edges [(0, 1)] {[0 := 5]} 1 = inl KeyError
  /\ ~ exists p, partition_edges [(0, 1)] {[0 := 5]} 1 = inr p.
Proof.
  split; [|split; [lia|split]].
  - intros u v Huv. apply list_elem_of_singleton in Huv as [= -> ->].
    by eexists.
  - reflexivity.
  - intros [p Hp]. vm_compute in Hp. discriminate.
Qed.

End PartitionEdges.

(** ** The assignment resolver of generate_graph.py *)

Module Resolver.

Import Generate Spec.

Lemma apply_overrides_lookup (num_workers : Z) (custom : gmap Z str) (k : Z) :
  map_fold (apply_override num_workers) ∅ custom !! k
  = custom !! k ≫= valid_override num_workers.
Proof.
  revert k.
  apply (map_fold_weak_ind
           (fun r m => forall k, r !! k = m !! k ≫= valid_override num_workers)).
  - intros k. by rewrite !lookup_empty.
  - intros i x m r Hi IH k. unfold apply_override.
    destruct (decide (k = i)) as [->|Hne].
    + rewrite lookup_insert_eq. simpl. unfold valid_override.
      destruct (worker_index x) as [e|w].
      * by rewrite IH, Hi.
      * case_bool_decide.
        -- by rewrite lookup_insert_eq.
        -- by rewrite IH, Hi.
    + rewrite (lookup_insert_ne m) by done. rewrite <- IH.
      destruct (worker_index x) as [e|w]; [done|].
      case_bool_decide; [|done]. by rewrite lookup_insert_ne.
Qed.

Lemma no_valid_override (num_workers : Z) (worker_str : str) :
  num_workers <= 0 -> valid_override num_workers worker_str = None.
Proof.
  intros Hnw. unfold valid_override.
  destruct (worker_index worker_str); [done|].
  rewrite bool_decide_eq_false_2; [done|lia].
Qed.

Lemma apply_overrides_none (num_workers : Z) (custom : gmap Z str) :
  num_workers <= 0 -> map_fold (apply_override num_workers) ∅ custom = ∅.
Proof.
  intros Hnw. apply map_eq. intros k.
  rewrite apply_overrides_lookup, lookup_empty.
  destruct (custom !! k); simpl; [by apply no_valid_override|done].
Qed.

Lemma fill_raised (num_workers : Z) (e : exn) (ks : list Z) :
  foldl (fill_vertex num_workers) (inl e) ks = inl e.
Proof. induction ks as [|k ks IH]; simpl; [done|apply IH]. Qed.

Lemma if_bool_decide_ext {A} (P Q : Prop) `{Decision P, Decision Q} (a b : A) :
  (P <-> Q) ->
  (if bool_decide P then a else b) = (if bool_decide Q then a else b).
Proof. intros HPQ. by rewrite (bool_decide_ext P Q HPQ). Qed.

Lemma fill_vertex_inr (num_workers : Z) (a0 : gmap Z Z) (v : Z) :
  fill_vertex num_workers (inr a0) v
  = match a0 !! v with
    | Some _ => inr a0
    | None => bind (py_mod v num_workers) (fun w => inr (<[v := w]> a0))
    end.
Proof. reflexivity. Qed.

Lemma fill_lookup (num_workers : Z) (ks : list Z) (a0 : gmap Z Z) :
  num_workers <> 0 ->
  exists a, foldl (fill_vertex num_workers) (inr a0) ks = inr a
    /\ forall k, a !! k = match a0 !! k with
                         | Some w => Some w
                         | None => if bool_decide (k ∈ ks)
                                   then Some (k mod num_workers) else None
                         end.
Proof.
  intros Hnw. revert a0. induction ks as [|v ks IH]; intros a0.
  - exists a0. split; [done|]. intros k.
    destruct (a0 !! k); [done|].
    rewrite bool_decide_eq_false_2; [done|apply not_elem_of_nil].
  - cbn [foldl]. rewrite fill_vertex_inr.
    destruct (a0 !! v) as [w|] eqn:Hv.
    + destruct (IH a0) as (a & Ha & Hlook). exists a. split; [done|].
      intros k. rewrite Hlook. destruct (a0 !! k) eqn:Hk; [done|].
      assert (k <> v) by congruence.
      apply if_bool_decide_ext. rewrite elem_of_cons. tauto.
    + unfold py_mod. rewrite (proj2 (Z.eqb_neq _ _)) by done. simpl.
      destruct (IH (<[v := v mod num_workers]> a0)) as (a & Ha & Hlook).
      exists a. split; [done|]. intros k. rewrite Hlook.
      destruct (decide (k = v)) as [->|Hne].
      * rewrite lookup_insert_eq, Hv.
        rewrite bool_decide_eq_true_2; [done|by left].
      * rewrite lookup_insert_ne by done. destruct (a0 !! k); [done|].
        apply if_bool_decide_ext. rewrite elem_of_cons. tauto.
Qed.

Lemma fill_zero_workers (ks : list Z) :
  foldl (fill_vertex 0) (inr ∅) ks
  = match ks with [] => inr ∅ | _ => inl ZeroDivisionError end.
Proof.
  destruct ks as [|k ks]; [done|]. cbn [foldl].
  rewrite fill_vertex_inr, lookup_empty. simpl.
  apply fill_raised.
Qed.

(** What [assign_vertices] returns for a worker count that is not zero. *)
Lemma assign_vertices_lookup (num_vertices num_workers : Z)
    (custom : option (gmap Z str)) :
  num_workers <> 0 ->
  exists a, assign_vertices num_vertices num_workers custom = inr a
    /\ forall k, a !! k =
         match override custom k ≫= valid_override num_workers with
         | Some w => Some w
         | None => if bool_decide (0 <= k < num_vertices)
                   then Some (k mod num_workers) else None
         end.
Proof.
  intros Hnw. unfold assign_vertices.
  destruct (fill_lookup num_workers (range num_vertices)
              (match custom with
               | Some c => map_fold (apply_override num_workers) ∅ c
               | None => ∅
               end) Hnw) as (a & Ha & Hlook).
  exists a. split; [exact Ha|]. intros k. rewrite Hlook.
  assert (Hov : match custom with
                | Some c => map_fold (apply_override num_workers) ∅ c
                | None => ∅
                end !! k = override custom k ≫= valid_override num_workers).
  { destruct custom as [c|]; simpl.
    - apply apply_overrides_lookup.
    - apply lookup_empty. }
  rewrite Hov. destruct (override custom k ≫= valid_override num_workers); [done|].
  apply if_bool_decide_ext. apply PartitionEdges.elem_of_range.
Qed.





(** C5, as amended. There is no check of the worker count. With zero
    workers and at least one vertex the first modulo raises
    [ZeroDivisionError]; with zero workers and no vertex the result is
    the empty assignment; with a negative worker count the call returns,
    and maps the vertices of [0, num_vertices) to [v % num_workers], which
    is then in (num_workers, 0]. No override is valid in these cases. The
    other script divides by the worker count first, in
    [calculate_workloads], which raises [ZeroDivisionError] for zero
    workers. *)
Theorem assign_vertices_nonpositive_workers (num_vertices num_workers : Z)
    (custom : option (gmap Z str)) :
  num_workers <= 0 ->
  (num_workers = 0 -> 0 < num_vertices ->
     assign_vertices num_vertices num_workers custom = inl ZeroDivisionError)
  /\ (num_workers = 0 -> num_vertices <= 0 ->
        assign_vertices num_vertices num_workers custom = inr ∅)
  /\ (num_workers < 0 ->
        exists a, assign_vertices num_vertices num_workers custom = inr a
          /\ forall v, a !! v = if bool_decide (0 <= v < num_vertices)
                                then Some (v mod num_workers) else None)
  /\ (num_workers = 0 ->
        forall n, Partition.calculate_workloads n num_workers = inl ZeroDivisionError).
Proof.
  intros Hnw.
  assert (Hstart : match custom with
                   | Some c => map_fold (apply_override num_workers) ∅ c
                   | None => ∅
                   end = (∅ : gmap Z Z)).
  { destruct custom; [by apply apply_overrides_none|done]. }
  split; [|split; [|split]]; [| | |by intros ->].
  - intros -> Hnv. unfold assign_vertices, ret. rewrite Hstart.
    rewrite (fill_zero_workers (range num_vertices)).
    unfold range. rewrite seqZ_cons by lia. done.
  - intros -> Hnv. unfold assign_vertices, ret. rewrite Hstart.
    unfold range. by rewrite seqZ_nil.
  - intros Hneg.
    destruct (assign_vertices_lookup num_vertices num_workers custom)
      as (a & Ha & Hlook); [lia|].
    exists a. split; [done|]. intros v. rewrite Hlook.
    destruct (override custom v) as [label|]; simpl; [|done].
    by rewrite no_valid_override.
Qed.

Lemma assign_vertices_nonpositive_workers_witness :
  assign_vertices 3 0 None = inl ZeroDivisionError.
Proof.
  apply (assign_vertices_nonpositive_workers 3 0 None); lia.
Defined.

(** C5 as it is written fails: with a negative worker count the resolver
    returns an assignment, and with no worker and no vertex as well. *)
Lemma assign_vertices_negative_workers :
  assign_vertices 3 (-2) None = inr {[0 := 0; 1 := -1; 2 := 0]}
  /\ assign_vertices 0 0 None = inr ∅.
Proof. split; reflexivity. Qed.

End Resolver.

(** ** The generator of generate_graph.py *)

Module Generator.

Import Random Generate GenerateMain IO Spec.

Lemma capacity_is_not_empty_range (num_edges num_vertices max_possible_edges : Z) :
  ValueError (capacity_message num_edges num_vertices max_possible_edges) <> empty_range.
Proof. unfold capacity_message, empty_range. simpl. congruence. Qed.

(** *** The canonical pairs *)

Lemma elem_of_pairs_below (n : nat) (a b : Z) :
  (a, b) ∈ pairs_below n <-> 0 <= a /\ a < b /\ b < Z.of_nat n.
Proof.
  induction n as [|n IH]; simpl.
  - rewrite elem_of_nil. lia.
  - rewrite elem_of_app, IH, list_elem_of_fmap. split.
    + intros [?|(a' & [= -> ->] & Ha)]; [lia|].
      apply elem_of_seqZ in Ha. lia.
    + intros (Ha & Hab & Hb).
      destruct (decide (b = Z.of_nat n)) as [->|]; [right|left; lia].
      exists a. split; [done|]. apply elem_of_seqZ. lia.
Qed.

Lemma NoDup_pairs_below (n : nat) : NoDup (pairs_below n).
Proof.
  induction n as [|n IH]; simpl; [constructor|].
  apply NoDup_app. split; [done|]. split.
  - intros [a b] Hin Hin'. apply elem_of_pairs_below in Hin.
    apply list_elem_of_fmap in Hin' as (a' & [= -> ->] & _). lia.
  - apply NoDup_fmap_2; [|apply NoDup_seqZ]. intros a a' [=]. done.
Qed.

Lemma length_pairs_below (n : nat) :
  2 * Z.of_nat (length (pairs_below n)) = Z.of_nat n * (Z.of_nat n - 1).
Proof.
  induction n as [|n IH]; simpl; [done|].
  rewrite length_app, length_fmap, length_seqZ. lia.
Qed.

Lemma elem_of_canonical_pairs (num_vertices a b : Z) :
  (a, b) ∈ canonical_pairs num_vertices <-> 0 <= a /\ a < b /\ b < num_vertices.
Proof.
  unfold canonical_pairs. rewrite elem_of_list_to_set, elem_of_pairs_below. lia.
Qed.

Lemma size_canonical_pairs (num_vertices : Z) :
  0 <= num_vertices ->
  Z.of_nat (size (canonical_pairs num_vertices))
  = num_vertices * (num_vertices - 1) / 2.
Proof.
  intros Hnv. unfold canonical_pairs.
  rewrite size_list_to_set by apply NoDup_pairs_below.
  pose proof (length_pairs_below (Z.to_nat num_vertices)) as Hlen.
  rewrite Z2Nat.id in Hlen by done.
  rewrite <- Hlen. by rewrite Z.mul_comm, Z.div_mul.
Qed.

(** A set of canonical pairs that has fewer pairs than there are lacks
    one of them. *)
Lemma missing_pair (num_vertices : Z) (s : gset edge) :
  s ⊆ canonical_pairs num_vertices ->
  (size s < size (canonical_pairs num_vertices))%nat ->
  exists a b, 0 <= a /\ a < b /\ b < num_vertices /\ (a, b) ∉ s.
Proof.
  intros Hsub Hsize.
  destruct (size_pos_elem_of (canonical_pairs num_vertices ∖ s)) as [[a b] Hab].
  { rewrite size_difference by done. lia. }
  apply elem_of_difference in Hab as [Hin Hout].
  apply elem_of_canonical_pairs in Hin. exists a, b. tauto.
Qed.

Section AnySource.

Context {R : Source}.

Lemma randint_error (a b : Z) (g g' : state) (e : exn) :
  randint a b g = (inl e, g') -> e = empty_range.
Proof.
  unfold randint. destruct (0 <? b + 1 - a).
  - destruct (randbelow _ g). intros [=].
  - by intros [= <- _].
Qed.

(** The loop raises nothing but what [randint] raises. *)
Lemma sample_edges_error (fuel : nat) (num_vertices num_edges : Z)
    (s : gset edge) (g g' : state) (e : exn) :
  sample_edges fuel num_vertices num_edges s g = Some (inl e, g') -> e = empty_range.
Proof.
  revert s g. induction fuel as [|fuel IH]; intros s g; simpl.
  - case_bool_decide; intros [=].
  - case_bool_decide; [|intros [=]].
    destruct (randint 0 (num_vertices - 1) g) as [[e1|u] g1] eqn:Hu.
    { intros [= <- _]. by apply randint_error in Hu. }
    destruct (randint 0 (num_vertices - 1) g1) as [[e2|v] g2] eqn:Hv.
    { intros [= <- _]. by apply randint_error in Hv. }
    apply IH.
Qed.

(** C6. The generation fails with the error of the capacity check, a
    [ValueError] with the message of that check, exactly when
    [num_edges] is above [num_vertices * (num_vertices - 1) / 2]; and
    [main] then ends with this error and every file as it was. *)
Theorem capacity_error_iff (fuel : nat) (num_vertices num_edges : Z)
    (seed : option Z) (g : state) :
  let max_possible_edges := num_vertices * (num_vertices - 1) / 2 in
  let capacity_error :=
    ValueError (capacity_message num_edges num_vertices max_possible_edges) in
  ((exists g', generate_random_graph fuel num_vertices num_edges seed g
               = Some (inl capacity_error, g'))
   <-> num_edges > max_possible_edges)
  /\ (forall config args w,
        resolve_num_vertices config args = num_vertices ->
        resolve_num_edges num_vertices args = num_edges ->
        args_seed args = seed ->
        num_edges > max_possible_edges ->
        exists g' w', main fuel config args g w = Some (inl capacity_error, g', w')
          /\ files w' = files w).
Proof.
  intros max_possible_edges capacity_error.
  assert (Hfail : num_edges > max_possible_edges ->
            exists g', generate_random_graph fuel num_vertices num_edges seed g
                       = Some (inl capacity_error, g')).
  { intros Hgt. unfold generate_random_graph, generate_edge_set.
    fold max_possible_edges. rewrite bool_decide_eq_true_2 by done.
    by eexists. }
  split; [split; [|done]|].
  - intros [g' Hgen]. destruct (decide (num_edges > max_possible_edges)); [done|].
    exfalso. unfold generate_random_graph, generate_edge_set in Hgen.
    fold max_possible_edges in Hgen.
    rewrite bool_decide_eq_false_2 in Hgen by done.
    destruct (sample_edges _ _ _ _ _) as [[[e|s] g1]|] eqn:Hloop; [|done|done].
    injection Hgen as He _. apply sample_edges_error in Hloop.
    subst e. symmetry in He. by apply capacity_is_not_empty_range in He.
  - intros config args w Hnv Hne Hseed Hgt.
    destruct (Hfail Hgt) as [g' Hgen].
    unfold main. rewrite Hnv, Hne, Hseed, Hgen.
    eexists _, _. split; [reflexivity|]. reflexivity.
Qed.

End AnySource.

(** *** The sampling loop with a generator that draws in range *)

Section DrawsInRange.

Context {R : Source}.
Hypothesis draws_in_range : in_range R.

Variables num_vertices num_edges : Z.
Hypothesis some_vertex : 0 < num_vertices.

Lemma sample_edges_step (fuel : nat) (s : gset edge) (g : state) :
  sample_edges (S fuel) num_vertices num_edges s g
  = if bool_decide (Z.of_nat (size s) < num_edges)
    then sample_edges fuel num_vertices num_edges
           (add_pair (draw_pair num_vertices g).1 s) (draw_pair num_vertices g).2
    else Some (inr s, g).
Proof.
  cbn [sample_edges]. case_bool_decide; [|done].
  unfold randint, draw_pair.
  replace (num_vertices - 1 + 1 - 0) with num_vertices by lia.
  rewrite (proj2 (Z.ltb_lt 0 num_vertices)) by done.
  destruct (randbelow num_vertices g) as [u g1].
  destruct (randbelow num_vertices g1) as [v g2]. done.
Qed.

Lemma draw_pair_range (g : state) :
  0 <= (draw_pair num_vertices g).1.1 < num_vertices
  /\ 0 <= (draw_pair num_vertices g).1.2 < num_vertices.
Proof.
  unfold draw_pair.
  pose proof (draws_in_range num_vertices g some_vertex) as Hu.
  destruct (randbelow num_vertices g) as [u g1].
  pose proof (draws_in_range num_vertices g1 some_vertex) as Hv.
  destruct (randbelow num_vertices g1) as [v g2]. done.
Qed.

Lemma add_pair_canonical (p : Z * Z) (s : gset edge) :
  0 <= p.1 < num_vertices -> 0 <= p.2 < num_vertices ->
  s ⊆ canonical_pairs num_vertices ->
  add_pair p s ⊆ canonical_pairs num_vertices.
Proof.
  intros H1 H2 Hs. unfold add_pair. case_bool_decide; [|done].
  apply union_subseteq. split; [|done].
  apply singleton_subseteq_l. unfold canonical.
  apply elem_of_canonical_pairs. lia.
Qed.

Lemma add_pair_size (p : Z * Z) (s : gset edge) :
  add_pair p s = s \/ size (add_pair p s) = S (size s).
Proof.
  unfold add_pair. case_bool_decide; [|by left].
  destruct (decide (canonical p ∈ s)) as [Hin|Hout].
  - left. apply subseteq_union_1_L. by apply singleton_subseteq_l.
  - right. rewrite size_union by (by apply disjoint_singleton_l).
    by rewrite size_singleton.
Qed.

(** What the loop returns is a set of [num_edges] canonical pairs. *)
Lemma sample_edges_result (fuel : nat) (s s' : gset edge) (g g' : state) :
  s ⊆ canonical_pairs num_vertices ->
  Z.of_nat (size s) <= num_edges ->
  sample_edges fuel num_vertices num_edges s g = Some (inr s', g') ->
  s' ⊆ canonical_pairs num_vertices /\ Z.of_nat (size s') = num_edges.
Proof.
  revert s g. induction fuel as [|fuel IH]; intros s g Hs Hsize.
  - cbn [sample_edges]. case_bool_decide; [done|].
    intros Hret. injection Hret as <- <-. split; [done|lia].
  - rewrite sample_edges_step. case_bool_decide.
    + apply IH.
      * apply add_pair_canonical; [apply draw_pair_range..|done].
      * destruct (add_pair_size (draw_pair num_vertices g).1 s) as [->| ->]; lia.
    + intros Hret. injection Hret as <- <-. split; [done|lia].
Qed.

Lemma sample_edges_more_fuel (fuel fuel' : nat) (s : gset edge) (g : state)
    (r : res (gset edge) * state) :
  (fuel <= fuel')%nat ->
  sample_edges fuel num_vertices num_edges s g = Some r ->
  sample_edges fuel' num_vertices num_edges s g = Some r.
Proof.
  revert fuel' s g. induction fuel as [|fuel IH]; intros fuel' s g Hle.
  - cbn [sample_edges]. case_bool_decide; [done|]. intros <-.
    destruct fuel'; cbn [sample_edges]; by rewrite bool_decide_eq_false_2.
  - destruct fuel' as [|fuel']; [lia|].
    rewrite !sample_edges_step. case_bool_decide; [|done].
    apply IH. lia.
Qed.

Variable g0 : state.
Hypothesis fair_from_g0 : fair num_vertices g0.
Hypothesis within_capacity : num_edges <= num_vertices * (num_vertices - 1) / 2.

Lemma state_after_S (n : nat) :
  state_after num_vertices (S n) g0
  = (draw_pair num_vertices (state_after num_vertices n g0)).2.
Proof. reflexivity. Qed.

(** The loop ends: a missing pair is drawn at some turn, and the set has
    grown by then. *)
Lemma sample_edges_ends (k n : nat) (s : gset edge) :
  s ⊆ canonical_pairs num_vertices ->
  Z.of_nat (size s) + Z.of_nat k = num_edges ->
  exists fuel s' g',
    sample_edges fuel num_vertices num_edges s (state_after num_vertices n g0)
    = Some (inr s', g').
Proof.
  revert n s. induction k as [|k IHk]; intros n s Hs Hsize.
  - exists O, s, (state_after num_vertices n g0). cbn [sample_edges].
    rewrite bool_decide_eq_false_2; [done|lia].
  - destruct (missing_pair num_vertices s Hs) as (a & b & Ha & Hab & Hb & Hout).
    { apply Nat2Z.inj_lt. rewrite size_canonical_pairs by lia. lia. }
    destruct (fair_from_g0 n a b Ha Hab Hb) as (m & Hm & Hdraw).
    assert (Hgrow : forall d n s,
              (n + d = m)%nat -> s ⊆ canonical_pairs num_vertices ->
              Z.of_nat (size s) + Z.of_nat (S k) = num_edges -> (a, b) ∉ s ->
              exists fuel s' g',
                sample_edges fuel num_vertices num_edges s
                  (state_after num_vertices n g0) = Some (inr s', g')).
    { clear n s Hs Hsize Hout Hm.
      induction d as [|d IHd]; intros n s Hn Hs Hsize Hout.
      - replace n with m by lia.
        set (p := (draw_pair num_vertices (state_after num_vertices m g0)).1) in *.
        assert (Hp : add_pair p s = {[ (a, b) ]} ∪ s).
        { unfold add_pair. rewrite Hdraw.
          rewrite bool_decide_eq_true_2; [done|].
          unfold canonical in Hdraw. injection Hdraw as Hmin Hmax. lia. }
        destruct (IHk (S m) ({[ (a, b) ]} ∪ s)) as (fuel & s' & g' & Hrun).
        + apply union_subseteq. split; [|done].
          apply singleton_subseteq_l, elem_of_canonical_pairs. lia.
        + rewrite size_union by (by apply disjoint_singleton_l).
          rewrite size_singleton. lia.
        + exists (S fuel), s', g'. rewrite sample_edges_step.
          rewrite bool_decide_eq_true_2 by lia.
          fold p. rewrite Hp. by rewrite <- state_after_S.
      - set (p := (draw_pair num_vertices (state_after num_vertices n g0)).1).
        assert (Hsub : add_pair p s ⊆ canonical_pairs num_vertices).
        { apply add_pair_canonical; [apply draw_pair_range..|done]. }
        assert (Hnext : exists fuel s' g',
                  sample_edges fuel num_vertices num_edges (add_pair p s)
                    (state_after num_vertices (S n) g0) = Some (inr s', g')).
        { destruct (add_pair_size p s) as [Heq|Heq].
          - rewrite Heq. apply IHd; [lia|done..].
          - apply IHk; [done|]. rewrite Heq. lia. }
        destruct Hnext as (fuel & s' & g' & Hrun).
        exists (S fuel), s', g'. rewrite sample_edges_step.
        rewrite bool_decide_eq_true_2 by lia.
        fold p. by rewrite <- state_after_S. }
    apply (Hgrow (m - n)%nat n s); [lia|done..].
Qed.

End DrawsInRange.

(** *** The counting generator *)

Lemma counting_in_range : in_range counting.
Proof.
  intros n g Hn. simpl. unfold counting_randbelow. simpl.
  destruct (Nat.even g); apply Z.mod_pos_bound; done.
Qed.

Lemma counting_draw_pair (num_vertices : Z) (j : nat) :
  draw_pair (R := counting) num_vertices (2 * j)%nat
  = ((Z.of_nat j mod num_vertices, (Z.of_nat j / num_vertices) mod num_vertices),
     (2 * S j)%nat).
Proof.
  unfold draw_pair. cbn [randbelow counting]. unfold counting_randbelow.
  rewrite Nat.even_succ, <- Nat.negb_even, Nat.even_mul. simpl negb. cbn [orb].
  rewrite Nat.div2_succ_double, Nat.div2_double.
  f_equal. lia.
Qed.

Lemma counting_state_after (num_vertices : Z) (m j : nat) :
  state_after (R := counting) num_vertices m (2 * j)%nat = (2 * (j + m))%nat.
Proof.
  induction m as [|m IH].
  - unfold state_after. simpl. lia.
  - change (state_after (R := counting) num_vertices (S m) (2 * j)%nat)
      with (draw_pair (R := counting) num_vertices
              (state_after (R := counting) num_vertices m (2 * j)%nat)).2.
    rewrite IH, counting_draw_pair. cbn [snd]. lia.
Qed.

Lemma counting_fair (num_vertices seed_value : Z) :
  0 < num_vertices ->
  fair (R := counting) num_vertices (seed (Source := counting) seed_value).
Proof.
  intros Hnv n a b Ha Hab Hb. cbn [seed counting].
  set (j0 := Z.to_nat (Z.abs seed_value)).
  set (t := Z.of_nat (j0 + n)).
  set (j := a + (b + t * num_vertices) * num_vertices).
  assert (Ht : 0 <= t) by lia.
  assert (H1 : t <= t * num_vertices) by nia.
  assert (H2 : t * num_vertices <= t * num_vertices * num_vertices) by nia.
  assert (H3 : 0 <= b * num_vertices) by nia.
  assert (Hj : Z.of_nat (j0 + n) <= j) by (unfold j; fold t; lia).
  exists (Z.to_nat j - j0)%nat. split; [lia|].
  rewrite counting_state_after, counting_draw_pair.
  replace (Z.of_nat (j0 + (Z.to_nat j - j0))) with j by lia.
  unfold canonical. cbn [fst snd].
  assert (Hu : j mod num_vertices = a).
  { unfold j. rewrite Z_mod_plus_full. apply Z.mod_small. lia. }
  assert (Hv : (j / num_vertices) mod num_vertices = b).
  { unfold j. rewrite Z_div_plus_full by lia.
    rewrite Z.div_small by lia. rewrite Z.add_0_l.
    rewrite Z_mod_plus_full. apply Z.mod_small. lia. }
  rewrite Hu, Hv. f_equal; lia.
Qed.

(** *** The set of a seeded generation *)

(** C2, as amended. For at least two vertices, an edge count between 0
    and [num_vertices * (num_vertices - 1) / 2], a generator that draws
    in range and that, once seeded, goes on to draw every pair of
    distinct vertices: the seeded generation ends, and its set has
    exactly [num_edges] pairs [(a, b)], all with [0 <= a < b <
    num_vertices]. The set is the same at every call with this seed,
    whatever the generator's state before the call; [generate_random_graph]
    returns its pairs in both directions. *)
Theorem generate_edge_set_seeded {R : Source} (num_vertices num_edges seed_value : Z) :
  in_range R ->
  fair num_vertices (seed seed_value) ->
  2 <= num_vertices ->
  0 <= num_edges ->
  num_edges <= num_vertices * (num_vertices - 1) / 2 ->
  exists (fuel0 : nat) (edges_set : gset edge) (g' : state),
    (forall fuel g, (fuel0 <= fuel)%nat ->
       generate_edge_set fuel num_vertices num_edges (Some seed_value) g
       = Some (inr edges_set, g'))
    /\ Z.of_nat (size edges_set) = num_edges
    /\ (forall a b, (a, b) ∈ edges_set -> 0 <= a /\ a < b /\ b < num_vertices)
    /\ (forall fuel g, (fuel0 <= fuel)%nat ->
          generate_random_graph fuel num_vertices num_edges (Some seed_value) g
          = Some (inr (both_directions (elements edges_set)), g')).
Proof.
  intros Hrange Hfair Hnv Hne Hcap.
  destruct (sample_edges_ends Hrange num_vertices num_edges ltac:(lia)
              (seed seed_value) Hfair Hcap (Z.to_nat num_edges) O ∅)
    as (fuel0 & s' & g' & Hrun).
  { apply empty_subseteq. }
  { rewrite size_empty. lia. }
  change (state_after num_vertices 0 (seed seed_value)) with (seed seed_value) in Hrun.
  destruct (sample_edges_result Hrange num_vertices num_edges ltac:(lia)
              fuel0 ∅ s' (seed seed_value) g') as [Hsub Hsize];
    [apply empty_subseteq|rewrite size_empty; lia|done|].
  assert (Hgen : forall fuel g, (fuel0 <= fuel)%nat ->
            generate_edge_set fuel num_vertices num_edges (Some seed_value) g
            = Some (inr s', g')).
  { intros fuel g Hfuel. unfold generate_edge_set.
    rewrite bool_decide_eq_false_2 by lia.
    by apply (sample_edges_more_fuel num_vertices num_edges ltac:(lia) fuel0). }
  exists fuel0, s', g'. split; [done|]. split; [done|]. split.
  - intros a b Hab. apply elem_of_canonical_pairs. by apply Hsub.
  - intros fuel g Hfuel. unfold generate_random_graph. by rewrite Hgen.
Qed.

Lemma generate_edge_set_seeded_witness :
  exists (fuel0 : nat) (edges_set : gset edge) (g' : nat),
    (forall fuel g, (fuel0 <= fuel)%nat ->
       generate_edge_set (R := counting) fuel 3 2 (Some 42) g
       = Some (inr edges_set, g'))
    /\ Z.of_nat (size edges_set) = 2
    /\ (forall a b, (a, b) ∈ edges_set -> 0 <= a /\ a < b /\ b < 3)
    /\ (forall fuel g, (fuel0 <= fuel)%nat ->
          generate_random_graph (R := counting) fuel 3 2 (Some 42) g
          = Some (inr (both_directions (elements edges_set)), g')).
Proof.
  apply (generate_edge_set_seeded (R := counting) 3 2 42).
  - exact counting_in_range.
  - apply counting_fair. lia.
  - lia.
  - lia.
  - vm_compute. discriminate.
Defined.

(** C2 as it is written fails: an edge count below zero is within the
    capacity, the loop makes no turn, and the set returned is empty: it
    has no [-1] pairs. *)
Lemma negative_edge_count :
  2 <= 2
  /\ -1 <= 2 * (2 - 1) / 2
  /\ generate_edge_set (R := counting) 0 2 (-1) (Some 42) (seed (Source := counting) 0)
     = Some (inr ∅, seed (Source := counting) 42)
  /\ Z.of_nat (size (∅ : gset edge)) <> -1.
Proof.
  split; [lia|]. split; [vm_compute; discriminate|].
  split; [reflexivity|]. rewrite size_empty. lia.
Qed.

Lemma capacity_error_iff_witness :
  exists g' w',
    main (R := counting) 0 (Configuration (Some 2) None (Some 3) [])
         (Args None (Some 4) (Some 42) (lit "data") None)
         (seed (Source := counting) 42) (World ∅ [])
    = Some (inl (ValueError (capacity_message 4 3 3)), g', w')
    /\ files w' = ∅.
Proof.
  apply (capacity_error_iff (R := counting) 0 3 4 (Some 42)); [reflexivity..|].
  vm_compute. reflexivity.
Defined.

End Generator.

(** ** Integers and lines as text *)

Module Text.

Import Spec.

Lemma digit_char_digit (d : Z) :
  0 <= d < 10 -> is_digit (digit_char d) = true /\ digit_val (digit_char d) = d.
Proof.
  intros Hd.
  assert (Hcases : d = 0 \/ d = 1 \/ d = 2 \/ d = 3 \/ d = 4 \/ d = 5 \/ d = 6
                   \/ d = 7 \/ d = 8 \/ d = 9) by lia.
  repeat (destruct Hcases as [->|Hcases]; [by vm_compute|]).
  subst d. by vm_compute.
Qed.

Lemma digit_not_space (c : ascii) : is_digit c = true -> is_space c = false.
Proof.
  unfold is_digit, is_space. set (n := code c).
  intros Hd. apply andb_true_iff in Hd as [H1 H2].
  apply Nat.leb_le in H1, H2.
  rewrite (proj2 (Nat.leb_gt n 13)) by lia.
  rewrite (proj2 (Nat.leb_gt n 32)) by lia.
  rewrite (proj2 (Nat.eqb_neq n 133)) by lia.
  rewrite (proj2 (Nat.eqb_neq n 160)) by lia.
  by rewrite !andb_false_r.
Qed.

Lemma numeric_not_space (c : ascii) : numeric c -> is_space c = false.
Proof. intros [Hd| ->]; [by apply digit_not_space|done]. Qed.

Lemma chr_eqb_false (c c0 : ascii) (f : ascii -> bool) :
  f c = false -> f c0 = true -> chr_eqb c c0 = false.
Proof.
  intros Hc Hc0. unfold chr_eqb. destruct (Ascii.eqb c c0) eqn:E; [|done].
  apply Ascii.eqb_eq in E. congruence.
Qed.

Lemma digit_not (c c0 : ascii) :
  is_digit c = true -> is_digit c0 = false -> chr_eqb c c0 = false.
Proof.
  intros Hc Hc0. unfold chr_eqb. destruct (Ascii.eqb c c0) eqn:E; [|done].
  apply Ascii.eqb_eq in E. congruence.
Qed.

Lemma numeric_not_hash (c : ascii) : numeric c -> chr_eqb c "#" = false.
Proof. intros [Hd| ->]; [by apply digit_not|done]. Qed.

(** *** Writing and reading an integer *)

Lemma digits_value_digits (ds : str) (acc : Z) :
  Forall (fun c => is_digit c = true) ds ->
  digits_value acc false ds = Some (digits_fold acc ds).
Proof.
  revert acc. induction ds as [|c ds IH]; intros acc Hds; [done|].
  apply Forall_cons in Hds as [Hc Hds]. cbn [digits_value].
  rewrite Hc. by rewrite IH.
Qed.

Lemma digits_value_number (ds : str) :
  ds <> [] -> Forall (fun c => is_digit c = true) ds ->
  digits_value 0 true ds = Some (digits_fold 0 ds).
Proof.
  destruct ds as [|c ds]; [done|]. intros _ Hds.
  apply Forall_cons in Hds as [Hc Hds]. cbn [digits_value].
  rewrite Hc. by rewrite digits_value_digits.
Qed.

Lemma digits_before_value (fuel : nat) (n : Z) (acc : str) :
  0 <= n < 2 ^ Z.of_nat (S fuel) ->
  exists ds, digits_before (S fuel) n acc = ds ++ acc
    /\ ds <> []
    /\ Forall (fun c => is_digit c = true) ds
    /\ forall a, digits_fold a ds = a * 10 ^ Z.of_nat (length ds) + n.
Proof.
  revert n acc. induction fuel as [|fuel IH]; intros n acc Hn.
  - assert (Hsmall : n < 10) by (change (2 ^ Z.of_nat 1) with 2 in Hn; lia).
    cbn [digits_before]. rewrite (proj2 (Z.ltb_lt n 10)) by done.
    exists [digit_char (n mod 10)]. rewrite Z.mod_small by lia.
    destruct (digit_char_digit n) as [Hd Hv]; [lia|].
    split; [done|]. split; [done|]. split; [by repeat constructor|].
    intros a. unfold digits_fold. simpl. rewrite Hv. lia.
  - cbn [digits_before]. destruct (n <? 10) eqn:Hlt.
    + apply Z.ltb_lt in Hlt.
      exists [digit_char (n mod 10)]. rewrite Z.mod_small by lia.
      destruct (digit_char_digit n) as [Hd Hv]; [lia|].
      split; [done|]. split; [done|]. split; [by repeat constructor|].
      intros a. unfold digits_fold. simpl. rewrite Hv. lia.
    + apply Z.ltb_ge in Hlt.
      destruct (IH (n / 10) (digit_char (n mod 10) :: acc))
        as (ds & Hds & Hne & Hall & Hval).
      { split; [apply Z.div_pos; lia|].
        apply Z.div_lt_upper_bound; [lia|].
        rewrite Nat2Z.inj_succ, Z.pow_succ_r in Hn by lia. lia. }
      destruct (digit_char_digit (n mod 10)) as [Hd Hv].
      { apply Z.mod_pos_bound. lia. }
      exists (ds ++ [digit_char (n mod 10)]).
      split; [by rewrite <- app_assoc|].
      split; [by destruct ds|].
      split; [apply Forall_app; split; [done|by repeat constructor]|].
      intros a. unfold digits_fold in *. rewrite fold_left_app, Hval.
      simpl. rewrite Hv, length_app. simpl.
      rewrite Nat2Z.inj_add, Z.pow_add_r by lia.
      change (10 ^ Z.of_nat 1) with 10.
      pose proof (Z.div_mod n 10). lia.
Qed.

Lemma digits_value_ok (n : Z) :
  0 <= n ->
  digits n <> [] /\ Forall (fun c => is_digit c = true) (digits n)
  /\ digits_fold 0 (digits n) = n.
Proof.
  intros Hn. unfold digits.
  destruct (digits_before_value (Z.to_nat (Z.log2 n)) n []) as (ds & Hds & Hne & Hall & Hval).
  { split; [done|]. rewrite Nat2Z.inj_succ, Z2Nat.id by apply Z.log2_nonneg.
    destruct (decide (n = 0)) as [->|]; [done|].
    apply Z.log2_spec. lia. }
  rewrite Hds, app_nil_r. split; [done|]. split; [done|].
  rewrite Hval. lia.
Qed.

Lemma str_of_int_numeric (n : Z) :
  exists c s, str_of_int n = c :: s /\ numeric c /\ Forall numeric s.
Proof.
  unfold str_of_int. destruct (n <? 0) eqn:Hneg.
  - apply Z.ltb_lt in Hneg.
    destruct (digits_value_ok (- n)) as (_ & Hall & _); [lia|].
    exists "-"%char, (digits (- n)). split; [done|]. split; [by right|].
    eapply Forall_impl; [exact Hall|]. intros c Hc. by left.
  - apply Z.ltb_ge in Hneg.
    destruct (digits_value_ok n) as (Hne & Hall & _); [lia|].
    destruct (digits n) as [|c s]; [done|].
    apply Forall_cons in Hall as [Hc Hall].
    exists c, s. split; [done|]. split; [by left|].
    eapply Forall_impl; [exact Hall|]. intros c' Hc'. by left.
Qed.

Lemma str_of_int_no_space (n : Z) :
  str_of_int n <> [] /\ Forall (fun c => is_space c = false) (str_of_int n).
Proof.
  destruct (str_of_int_numeric n) as (c & s & -> & Hc & Hs).
  split; [done|]. constructor; [by apply numeric_not_space|].
  eapply Forall_impl; [exact Hs|]. apply numeric_not_space.
Qed.

(** *** Stripping and splitting *)

Lemma drop_space_head (c : ascii) (s : str) :
  is_space c = false -> drop_space (c :: s) = c :: s.
Proof. intros Hc. cbn [drop_space]. by rewrite Hc. Qed.

Lemma drop_space_spaces (pre s : str) :
  Forall (fun c => is_space c = true) pre -> drop_space (pre ++ s) = drop_space s.
Proof.
  induction pre as [|c pre IH]; intros Hpre; [done|].
  apply Forall_cons in Hpre as [Hc Hpre]. cbn [app drop_space].
  rewrite Hc. by apply IH.
Qed.

(** A text that begins and ends with a character that is no space is
    what is left of it when spaces are put around it. *)
Lemma strip_core (pre post core : str) (c z : ascii) (mid : str) :
  Forall (fun c => is_space c = true) pre ->
  Forall (fun c => is_space c = true) post ->
  core = c :: mid -> (exists mid', core = mid' ++ [z]) ->
  is_space c = false -> is_space z = false ->
  strip (pre ++ core ++ post) = core.
Proof.
  intros Hpre Hpost Hhead [mid' Hlast] Hc Hz. unfold strip.
  rewrite drop_space_spaces by done.
  rewrite Hhead. cbn [app]. rewrite drop_space_head by done.
  rewrite <- Hhead. change (c :: mid ++ post) with ((c :: mid) ++ post).
  rewrite <- Hhead, rev_app_distr.
  rewrite drop_space_spaces by (by apply Forall_rev).
  rewrite Hlast at 1. rewrite rev_app_distr. cbn [rev app].
  rewrite drop_space_head by done.
  change (z :: rev mid') with (rev [z] ++ rev mid').
  rewrite <- rev_app_distr, <- Hlast. apply rev_involutive.
Qed.

Lemma last_char (s : str) : s <> [] -> exists s' z, s = s' ++ [z].
Proof.
  intros Hs. destruct (exists_last Hs) as (s' & z & ->). by exists s', z.
Qed.

Lemma strip_no_space (s : str) :
  Forall (fun c => is_space c = false) s -> strip s = s.
Proof.
  intros Hs. destruct s as [|c mid]; [done|].
  destruct (last_char (c :: mid)) as (s' & z & Hlast); [done|].
  rewrite <- (app_nil_r (c :: mid)) at 1.
  apply (strip_core [] [] (c :: mid) c z mid); try done.
  - by exists s'.
  - by apply Forall_cons in Hs as [? _].
  - rewrite Hlast in Hs. apply Forall_app in Hs as [_ Hz].
    by apply Forall_cons in Hz as [? _].
Qed.

Lemma split_ws_from_token (cur a rest : str) :
  Forall (fun c => is_space c = false) a ->
  split_ws_from cur (a ++ rest) = split_ws_from (rev a ++ cur) rest.
Proof.
  revert cur. induction a as [|c a IH]; intros cur Ha; [done|].
  apply Forall_cons in Ha as [Hc Ha]. cbn [app split_ws_from].
  rewrite Hc, IH by done. cbn [rev]. by rewrite <- app_assoc.
Qed.

Lemma split_ws_two (a b : str) :
  a <> [] -> b <> [] ->
  Forall (fun c => is_space c = false) a ->
  Forall (fun c => is_space c = false) b ->
  split_ws (a ++ lit " " ++ b) = [a; b].
Proof.
  intros Hane Hbne Ha Hb. unfold split_ws.
  rewrite split_ws_from_token by done. rewrite app_nil_r.
  change (lit " " ++ b) with (" "%char :: b). cbn [split_ws_from].
  change (is_space " ") with true. cbn iota.
  assert (Hrev : rev a <> []).
  { intros Hnil. apply Hane. by rewrite <- (rev_involutive a), Hnil. }
  destruct (rev a) as [|c ra] eqn:Hra; [done|].
  rewrite <- Hra, rev_involutive. f_equal.
  rewrite <- (app_nil_r b) at 1.
  rewrite split_ws_from_token by done. rewrite app_nil_r. cbn [split_ws_from].
  assert (Hrevb : rev b <> []).
  { intros Hnil. apply Hbne. by rewrite <- (rev_involutive b), Hnil. }
  destruct (rev b) as [|c' rb] eqn:Hrb; [done|].
  by rewrite <- Hrb, rev_involutive.
Qed.

(** Reading back the decimal writing of an integer. *)
Lemma int_str_of_int (n : Z) : int (str_of_int n) = inr n.
Proof.
  unfold int. rewrite strip_no_space by apply str_of_int_no_space.
  unfold str_of_int. destruct (n <? 0) eqn:Hneg.
  - apply Z.ltb_lt in Hneg.
    destruct (digits_value_ok (- n)) as (Hne & Hall & Hval); [lia|].
    change (chr_eqb "-" "-") with true. cbn iota.
    rewrite digits_value_number by done. rewrite Hval.
    unfold ret. f_equal. lia.
  - apply Z.ltb_ge in Hneg.
    destruct (digits_value_ok n) as (Hne & Hall & Hval); [lia|].
    destruct (digits n) as [|c s] eqn:Hds; [done|].
    assert (Hc : is_digit c = true) by (by apply Forall_cons in Hall as [? _]).
    rewrite (digit_not c "-"), (digit_not c "+") by done.
    rewrite digits_value_number by done. rewrite Hval.
    unfold ret. f_equal. lia.
Qed.

(** *** The lines of a file *)

Lemma lines_from_line (cur body rest : str) :
  Forall (fun c => chr_eqb c newline = false /\ chr_eqb c carriage_return = false) body ->
  lines_from cur (body ++ newline :: rest)
  = (rev cur ++ body ++ [newline]) :: lines_from [] rest.
Proof.
  revert cur. induction body as [|c body IH]; intros cur Hbody.
  - cbn [app lines_from]. change (chr_eqb newline newline) with true.
    cbn iota. done.
  - apply Forall_cons in Hbody as [[Hn Hr] Hbody].
    cbn [app lines_from]. rewrite Hn, Hr, IH by done.
    cbn [rev]. by rewrite <- app_assoc.
Qed.

End Text.

(** ** The loader of partition_existing_graph.py *)

Module Loader.

Import Partition Spec Text.

Lemma load_line_edge (acc : loaded) (line : str) :
  load_line acc line
  = match line_edge line with
    | Some e => read_edge acc e
    | None => acc
    end.
Proof.
  unfold load_line, line_edge.
  destruct (bool_decide (strip line = []) || startswith "#" (strip line)); [done|].
  destruct (split_ws (strip line)) as [|t0 [|t1 rest]]; [done|done|].
  cbn [length]. rewrite bool_decide_eq_false_2 by lia.
  unfold parse_edge, bind.
  destruct (int t0) as [e0|u]; [done|].
  destruct (int t1) as [e1|v]; [done|]. done.
Qed.

Lemma line_edge_valid (line : str) (u v : Z) :
  line_edge line = Some (u, v) <-> valid_line line u v.
Proof.
  unfold line_edge, valid_line. cbn zeta. split.
  - destruct (bool_decide (strip line = [])) eqn:Hempty; [done|].
    apply bool_decide_eq_false in Hempty. cbn [orb].
    destruct (startswith "#" (strip line)) eqn:Hhash; [done|].
    destruct (split_ws (strip line)) as [|t0 [|t1 rest]]; [done|done|].
    destruct (int t0) as [e0|u0] eqn:H0; [done|].
    destruct (int t1) as [e1|v0] eqn:H1; [done|].
    intros [= -> ->]. split; [done|]. split; [done|].
    by exists t0, t1, rest.
  - intros (Hne & Hhash & t0 & t1 & rest & -> & -> & ->).
    rewrite bool_decide_eq_false_2 by done. by rewrite Hhash.
Qed.

Lemma line_edge_skipped (line : str) :
  line_edge line = None <-> skipped_line line.
Proof.
  unfold line_edge, skipped_line. cbn zeta. split.
  - destruct (bool_decide (strip line = [])) eqn:Hempty.
    { apply bool_decide_eq_true in Hempty. by left. }
    cbn [orb]. destruct (startswith "#" (strip line)) eqn:Hhash.
    { right. by left. }
    destruct (split_ws (strip line)) as [|t0 [|t1 rest]] eqn:Hparts.
    + intros _. right. right. left. simpl. lia.
    + intros _. right. right. left. simpl. lia.
    + intros Hnone. right. right. right. exists t0, t1, rest. split; [done|].
      destruct (int t0) as [e0|u0]; [left; by exists e0|].
      destruct (int t1) as [e1|v0]; [right; by exists e1|done].
  - intros [Hempty|[Hhash|[Hshort|(t0 & t1 & rest & Hparts & Hbad)]]].
    + by rewrite bool_decide_eq_true_2.
    + rewrite Hhash. by rewrite orb_true_r.
    + destruct (bool_decide (strip line = []) || startswith "#" (strip line)); [done|].
      destruct (split_ws (strip line)) as [|t0 [|t1 rest]]; [done|done|].
      simpl in Hshort. lia.
    + destruct (bool_decide (strip line = []) || startswith "#" (strip line)); [done|].
      rewrite Hparts. destruct Hbad as [[e He]|[e He]]; rewrite He; [done|].
      by destruct (int t0).
Qed.

Lemma load_lines_edges (acc : loaded) (lines : list str) :
  foldl load_line acc lines = foldl read_edge acc (omap line_edge lines).
Proof.
  revert acc. induction lines as [|line lines IH]; intros acc; [done|].
  cbn [foldl omap list_omap]. rewrite load_line_edge.
  destruct (line_edge line) as [e|]; cbn [foldl]; apply IH.
Qed.

(** What the three variables of the loop are after the edges [es]. *)
Lemma read_edges_total (acc : loaded) (es : list edge) :
  total_edges (foldl read_edge acc es) = total_edges acc + Z.of_nat (length es).
Proof.
  revert acc. induction es as [|e es IH]; intros acc; cbn [foldl length].
  - lia.
  - rewrite IH. cbn [read_edge total_edges]. lia.
Qed.

Lemma read_edges_max (acc : loaded) (es : list edge) :
  let m := max_vertex (foldl read_edge acc es) in
  max_vertex acc <= m
  /\ (forall u v, (u, v) ∈ es -> u <= m /\ v <= m)
  /\ (m = max_vertex acc \/ exists u v, (u, v) ∈ es /\ m = Z.max u v).
Proof.
  revert acc. induction es as [|[u0 v0] es IH]; intros acc; cbn [foldl].
  - cbn zeta. split; [lia|]. split; [|by left].
    intros u v Huv. by apply elem_of_nil in Huv.
  - destruct (IH (read_edge acc (u0, v0))) as (Hle & Hall & Hsome).
    cbn [read_edge max_vertex fst snd] in Hle, Hsome. cbn zeta.
    split; [lia|]. split.
    + intros u v Huv. apply elem_of_cons in Huv as [[= -> ->]|Huv]; [lia|].
      by apply Hall.
    + destruct Hsome as [Hm|(u & v & Huv & Hm)].
      * destruct (decide (Z.max u0 v0 <= max_vertex acc)).
        -- left. lia.
        -- right. exists u0, v0. split; [by left|lia].
      * right. exists u, v. split; [by right|done].
Qed.

Lemma add_neighbor_neighbor (adjacency : gmap Z (gset Z)) (u0 v0 u v : Z) :
  neighbor (add_neighbor u0 v0 adjacency) u v
  <-> neighbor adjacency u v \/ (u, v) = (u0, v0).
Proof.
  unfold neighbor, add_neighbor. destruct (decide (u = u0)) as [->|Hne].
  - rewrite lookup_insert_eq. split.
    + intros (ns & [= <-] & Hv). apply elem_of_union in Hv as [Hv|Hv].
      * left. destruct (adjacency !! u0) as [ns|]; [by exists ns|].
        by apply elem_of_empty in Hv.
      * right. apply elem_of_singleton in Hv. by subst.
    + intros [(ns & Hns & Hv)|[= ->]]; eexists; (split; [done|]).
      * rewrite Hns. apply elem_of_union. by left.
      * apply elem_of_union. right. by apply elem_of_singleton.
  - rewrite lookup_insert_ne by done. split; [by left|].
    intros [?|[= ? ?]]; [done|by subst].
Qed.

Lemma read_edges_neighbor (acc : loaded) (es : list edge) (u v : Z) :
  neighbor (adjacency_dict (foldl read_edge acc es)) u v
  <-> neighbor (adjacency_dict acc) u v \/ (u, v) ∈ es.
Proof.
  revert acc. induction es as [|[u0 v0] es IH]; intros acc; cbn [foldl].
  - rewrite elem_of_nil. tauto.
  - rewrite IH. cbn [read_edge adjacency_dict fst snd].
    rewrite add_neighbor_neighbor, elem_of_cons. tauto.
Qed.

(** C9, as amended. For every content of the file, the inferred vertex
    count is the larger of 0 and 1 + the largest integer of a valid line:
    it is not negative, above both integers of every valid line, and it
    is 0 or 1 + the larger integer of some valid line; it is 0 when
    there is no valid line. A line that is empty, a comment, of fewer
    than two tokens, or whose first two tokens are not both integers
    leaves the three variables of the loop as they are, and every line is
    either such a line or a valid one; the neighbours of the adjacency
    dictionary are the edges of the valid lines, which [total_edges]
    counts. *)
Theorem load_graph_inferred_size (content : str) (adj : gmap Z (gset Z))
    (inferred total : Z) :
  load_graph content = (adj, inferred, total) ->
  0 <= inferred
  /\ (forall line u v, line ∈ file_lines content -> valid_line line u v ->
        u < inferred /\ v < inferred)
  /\ (inferred = 0
      \/ exists line u v, line ∈ file_lines content /\ valid_line line u v
           /\ inferred = 1 + Z.max u v)
  /\ ((forall line u v, line ∈ file_lines content -> ~ valid_line line u v) ->
        inferred = 0)
  /\ (forall acc line, skipped_line line -> load_line acc line = acc)
  /\ (forall line, skipped_line line \/ exists u v, valid_line line u v)
  /\ (forall u v, neighbor adj u v <->
        exists line, line ∈ file_lines content /\ valid_line line u v)
  /\ total = Z.of_nat (length (omap line_edge (file_lines content))).
Proof.
  unfold load_graph. rewrite load_lines_edges.
  set (es := omap line_edge (file_lines content)).
  set (start := Loaded ∅ (-1) 0).
  intros [= <- <- <-].
  assert (Hes : forall u v, (u, v) ∈ es <->
            exists line, line ∈ file_lines content /\ valid_line line u v).
  { intros u v. unfold es. rewrite list_elem_of_omap.
    split; intros (line & Hline & Hedge); exists line; (split; [done|]);
      by apply line_edge_valid. }
  destruct (read_edges_max start es) as (Hle & Hall & Hsome).
  cbn [start max_vertex] in Hle, Hsome.
  assert (Hthird : max_vertex (foldl read_edge start es) + 1 = 0
            \/ exists line u v, line ∈ file_lines content /\ valid_line line u v
                 /\ max_vertex (foldl read_edge start es) + 1 = 1 + Z.max u v).
  { destruct Hsome as [Hm|(u & v & Huv & Hm)].
    - left. change (max_vertex start) with (-1) in Hm. lia.
    - right. apply Hes in Huv as (line & Hline & Hvalid).
      exists line, u, v. split; [done|]. split; [done|lia]. }
  split; [change (max_vertex start) with (-1) in Hle; lia|].
  split.
  { intros line u v Hline Hvalid.
    destruct (Hall u v) as [Hu Hv]; [|lia].
    apply Hes. by exists line. }
  split; [exact Hthird|].
  split.
  { intros Hnone. destruct Hthird as [?|(line & u & v & Hline & Hvalid & _)]; [done|].
    by destruct (Hnone line u v). }
  split.
  { intros acc line Hskip. rewrite load_line_edge.
    apply line_edge_skipped in Hskip. by rewrite Hskip. }
  split.
  { intros line. destruct (line_edge line) as [[u v]|] eqn:Hedge.
    - right. exists u, v. by apply line_edge_valid.
    - left. by apply line_edge_skipped. }
  split.
  { intros u v. rewrite read_edges_neighbor, Hes.
    split; [|by right]. intros [(ns & Hns & _)|?]; [|done].
    cbn [start adjacency_dict] in Hns. by rewrite lookup_empty in Hns. }
  rewrite read_edges_total. cbn [start total_edges]. lia.
Qed.

Lemma load_graph_inferred_size_witness :
  exists line u v, line ∈ file_lines scenario_text /\ valid_line line u v
    /\ 3 = 1 + Z.max u v.
Proof.
  destruct (load_graph_inferred_size scenario_text
              (load_graph scenario_text).1.1 3 3)
    as (_ & _ & [Hzero|Hline] & _).
  - vm_compute. reflexivity.
  - discriminate Hzero.
  - exact Hline.
Defined.

(** C9 as it is written fails: the line [-5 -3] is a valid line, which
    the loader counts and puts into the adjacency dictionary, but the
    inferred count is 0 and not 1 + max(-5, -3). *)
Lemma negative_vertex_ids :
  let content := lit "-5 -3" ++ [newline] in
  file_lines content = [content]
  /\ valid_line content (-5) (-3)
  /\ (load_graph content).1.2 = 0
  /\ (load_graph content).2 = 1
  /\ (load_graph content).1.2 <> 1 + Z.max (-5) (-3).
Proof.
  cbn zeta. split; [reflexivity|]. split.
  - apply line_edge_valid. reflexivity.
  - split; [reflexivity|]. split; [reflexivity|]. vm_compute. discriminate.
Qed.

(** *** Loading what [write_edge_file] wrote *)

Lemma line_edge_edge_line (e : edge) : line_edge (Generate.edge_line e) = Some e.
Proof.
  destruct e as [u v]. unfold Generate.edge_line, line_edge. cbn [fst snd].
  destruct (str_of_int_numeric u) as (c & s & Hu & Hc & Hs).
  destruct (str_of_int_no_space u) as [Hune Hu_plain].
  destruct (str_of_int_no_space v) as [Hvne Hv_plain].
  destruct (last_char (str_of_int v) Hvne) as (s' & z & Hv).
  assert (Hz : is_space z = false).
  { rewrite Hv in Hv_plain. apply Forall_app in Hv_plain as [_ Hz].
    by apply Forall_cons in Hz as [? _]. }
  assert (Hstrip : strip (str_of_int u ++ lit " " ++ str_of_int v ++ [newline])
                   = str_of_int u ++ lit " " ++ str_of_int v).
  { set (core := str_of_int u ++ lit " " ++ str_of_int v).
    replace (str_of_int u ++ lit " " ++ str_of_int v ++ [newline])
      with ([] ++ core ++ [newline])
      by (unfold core; by rewrite <- !app_assoc).
    apply (strip_core [] [newline] core c z (s ++ lit " " ++ str_of_int v)).
    - constructor.
    - by repeat constructor.
    - unfold core. by rewrite Hu.
    - exists (str_of_int u ++ lit " " ++ s'). unfold core. rewrite Hv at 1.
      by rewrite <- !app_assoc.
    - by apply numeric_not_space.
    - done. }
  assert (Hhash : startswith "#" (str_of_int u ++ lit " " ++ str_of_int v) = false).
  { rewrite Hu. cbn [app startswith]. by apply numeric_not_hash. }
  rewrite Hstrip, Hhash. rewrite bool_decide_eq_false_2 by (rewrite Hu; done).
  cbn [orb]. rewrite split_ws_two by done.
  by rewrite !int_str_of_int.
Qed.

Lemma file_lines_written (edges : list edge) :
  file_lines (Generate.edge_file_text edges) = Generate.edge_line <$> edges.
Proof.
  unfold file_lines, Generate.edge_file_text.
  induction edges as [|[u v] edges IH]; [done|].
  cbn [fmap list_fmap concat].
  set (rest := concat (Generate.edge_line <$> edges)) in *.
  replace (Generate.edge_line (u, v) ++ rest)
    with ((str_of_int u ++ lit " " ++ str_of_int v) ++ newline :: rest)
    by (unfold Generate.edge_line; cbn [fst snd]; by rewrite <- !app_assoc).
  rewrite lines_from_line.
  - rewrite IH. cbn [rev app]. f_equal.
    unfold Generate.edge_line. cbn [fst snd]. by rewrite <- !app_assoc.
  - destruct (str_of_int_no_space u) as [_ Hu].
    destruct (str_of_int_no_space v) as [_ Hv].
    assert (Hplain : forall c, is_space c = false ->
              chr_eqb c newline = false /\ chr_eqb c carriage_return = false).
    { intros c Hc. split; by apply (chr_eqb_false c _ is_space). }
    apply Forall_app. split; [|apply Forall_app; split].
    + eapply Forall_impl; [exact Hu|]. exact Hplain.
    + by repeat constructor.
    + eapply Forall_impl; [exact Hv|]. exact Hplain.
Qed.

Lemma omap_line_edge_written (edges : list edge) :
  omap line_edge (Generate.edge_line <$> edges) = edges.
Proof.
  induction edges as [|e edges IH]; [done|].
  cbn [fmap list_fmap omap list_omap]. rewrite line_edge_edge_line.
  by rewrite IH.
Qed.

Lemma elem_of_adjacency_edges (adjacency : gmap Z (gset Z)) (u v : Z) :
  (u, v) ∈ adjacency_edges adjacency <-> neighbor adjacency u v.
Proof.
  unfold adjacency_edges, neighbor. rewrite list_elem_of_bind. split.
  - intros ([k ns] & Hv & Hitem). apply elem_of_map_to_list in Hitem.
    apply list_elem_of_fmap in Hv as (v' & [= -> ->] & Hv').
    exists ns. split; [done|]. by apply elem_of_elements.
  - intros (ns & Hns & Hv). exists (u, ns). split.
    + apply list_elem_of_fmap. exists v. split; [done|].
      by apply elem_of_elements.
    + by apply elem_of_map_to_list.
Qed.

Lemma NoDup_adjacency_edges (adjacency : gmap Z (gset Z)) :
  NoDup (adjacency_edges adjacency).
Proof.
  unfold adjacency_edges. apply NoDup_bind.
  - intros [k1 ns1] [k2 ns2] e H1 H2 He1 He2.
    apply list_elem_of_fmap in He1 as (v1 & -> & _).
    apply list_elem_of_fmap in He2 as (v2 & [= <- _] & _).
    apply elem_of_map_to_list in H1, H2. cbn [fst] in *. congruence.
  - intros [k ns] _. apply NoDup_fmap_2; [|apply NoDup_elements].
    intros v1 v2 [=]. done.
  - apply NoDup_map_to_list.
Qed.

(** C7, as amended. Loading the file written for a sequence of edges
    gives an adjacency dictionary whose edges are the edges of the
    sequence, each once whatever the number of times it was written, and
    a count of lines that is the length of the sequence. *)
Theorem load_written_edges (edges : list edge) (adj : gmap Z (gset Z))
    (inferred total : Z) :
  load_graph (Generate.edge_file_text edges) = (adj, inferred, total) ->
  (forall u v, (u, v) ∈ adjacency_edges adj <-> (u, v) ∈ edges)
  /\ NoDup (adjacency_edges adj)
  /\ total = Z.of_nat (length edges).
Proof.
  unfold load_graph.
  rewrite load_lines_edges, file_lines_written, omap_line_edge_written.
  intros [= <- <- <-]. split; [|split].
  - intros u v. rewrite elem_of_adjacency_edges, read_edges_neighbor.
    split; [|by right]. intros [(ns & Hns & _)|?]; [|done].
    cbn [adjacency_dict] in Hns. by rewrite lookup_empty in Hns.
  - apply NoDup_adjacency_edges.
  - rewrite read_edges_total. cbn [total_edges]. lia.
Qed.

Lemma load_written_edges_witness :
  (forall u v, (u, v) ∈ adjacency_edges
                 (load_graph (Generate.edge_file_text [(0, 1); (1, 0); (-3, 12)])).1.1
               <-> (u, v) ∈ [(0, 1); (1, 0); (-3, 12)])
  /\ NoDup (adjacency_edges
              (load_graph (Generate.edge_file_text [(0, 1); (1, 0); (-3, 12)])).1.1)
  /\ 3 = Z.of_nat (length [(0, 1); (1, 0); (-3, 12)]).
Proof.
  apply (load_written_edges [(0, 1); (1, 0); (-3, 12)] _ 13 3).
  vm_compute. reflexivity.
Defined.

(** C7 as it is written fails: an edge written twice is once in what is
    loaded, so the sequence loaded is not the sequence written. *)
Lemma written_twice_loaded_once :
  adjacency_edges (load_graph (Generate.edge_file_text [(0, 1); (0, 1)])).1.1
  = [(0, 1)]
  /\ adjacency_edges (load_graph (Generate.edge_file_text [(0, 1); (0, 1)])).1.1
     <> [(0, 1); (0, 1)].
Proof. split; [reflexivity|]. vm_compute. discriminate. Qed.

End Loader.

(** ** The scenario of the three lines *)

Module Scenario.

Import Partition Spec.

Ltac two_edges := first [reflexivity | apply perm_swap].

(** C4, as amended. With three workers the three lines [0 1], [1 2],
    [2 0] give: worker 0 the edges (0,1) and (0,2), worker 1 the edges
    (1,0) and (1,2), worker 2 the edges (2,1) and (2,0): each line's edge
    and its mirror, each in the bucket of its own source vertex modulo 3. *)
Theorem scenario_buckets :
  exists p b0 b1 b2,
    partition_adjacency (load_graph scenario_text).1.1 3 = inr p
    /\ p !! 0 = Some b0 /\ p !! 1 = Some b1 /\ p !! 2 = Some b2
    /\ b0 ≡ₚ [(0, 1); (0, 2)]
    /\ b1 ≡ₚ [(1, 0); (1, 2)]
    /\ b2 ≡ₚ [(2, 1); (2, 0)].
Proof.
  eexists _, _, _, _.
  split; [vm_compute; reflexivity|].
  split; [vm_compute; reflexivity|].
  split; [vm_compute; reflexivity|].
  split; [vm_compute; reflexivity|].
  split; [two_edges|]. split; two_edges.
Qed.

(** C4 as it is written fails: the edge (2,0) is not in the bucket of
    worker 0 but in that of worker 2, which so has an edge of the file;
    and the mirrored edges (0,2) and (1,0) are not in the bucket of
    worker 2. *)
Lemma scenario_not_as_written :
  exists p b0 b2,
    partition_adjacency (load_graph scenario_text).1.1 3 = inr p
    /\ p !! 0 = Some b0 /\ p !! 2 = Some b2
    /\ ((2, 0) ∉ b0) /\ ((2, 0) ∈ b2) /\ ((0, 2) ∉ b2) /\ ((1, 0) ∉ b2).
Proof.
  eexists _, _, _.
  split; [vm_compute; reflexivity|].
  split; [vm_compute; reflexivity|].
  split; [vm_compute; reflexivity|].
  repeat split; compute_done.
Qed.

End Scenario.

(** ** The publisher of partition_existing_graph.py *)

Module Publisher.

Import IO Partition Spec.


Lemma py_mod_nonzero (a b : Z) : b <> 0 -> py_mod a b = inr (a mod b).
Proof. intros Hb. unfold py_mod. by rewrite (proj2 (Z.eqb_neq b 0)). Qed.





Section Yaml.

Variable yaml_safe_load : str -> res pyval.
Variable yaml_dump : pyval -> str.




End Yaml.




End Publisher.

(** ** The workloads of partition_existing_graph.py *)

Module Workloads.

Import Partition Spec.

Lemma workload_steps (chunk extra num_workers : Z) (k : nat) :
  0 <= chunk -> Z.of_nat k < num_workers ->
  exists ws,
    foldl (workload_step chunk extra num_workers) (0, []) (seqZ 1 (Z.of_nat k))
    = (Z.of_nat k * chunk, ws)
    /\ length ws = k
    /\ concat ws = seqZ 0 (Z.of_nat k * chunk)
    /\ Forall (fun l => Z.of_nat (length l) = chunk) ws.
Proof.
  intros Hchunk. induction k as [|k IH]; intros Hk.
  - exists []. by repeat split.
  - destruct IH as (ws & Hrun & Hlen & Hcat & Hall); [lia|].
    rewrite seqZ_S, foldl_app, Hrun. cbn [foldl workload_step].
    rewrite (proj2 (Z.eqb_neq (1 + Z.of_nat k) num_workers)) by lia.
    unfold range_from.
    replace (Z.of_nat k * chunk + chunk - Z.of_nat k * chunk) with chunk by lia.
    exists (ws ++ [seqZ (Z.of_nat k * chunk) chunk]).
    split; [f_equal; lia|]. split; [rewrite length_app; simpl; lia|]. split.
    + rewrite concat_app, Hcat. simpl. rewrite app_nil_r.
      replace (Z.of_nat (S k) * chunk) with (Z.of_nat k * chunk + chunk) by lia.
      rewrite seqZ_app by lia. by rewrite Z.add_0_l.
    + apply Forall_app. split; [done|]. constructor; [|done].
      rewrite length_seqZ. lia.
Qed.

(** X1. For a vertex count that is not negative and a worker count above
    zero, [calculate_workloads] returns one list per worker; the lists,
    one after the other, are the vertices [0 .. n-1] in order; each has
    [n // num_workers] vertices but the last, which has the remainder
    too. *)
Theorem calculate_workloads_chunks (n num_workers : Z) :
  0 <= n -> 0 < num_workers ->
  exists ws, calculate_workloads n num_workers = inr ws
    /\ length ws = Z.to_nat num_workers
    /\ concat ws = range n
    /\ (forall (i : nat) l, ws !! i = Some l ->
          Z.of_nat (length l)
          = if bool_decide (S i = Z.to_nat num_workers)
            then n / num_workers + n mod num_workers
            else n / num_workers).
Proof.
  intros Hn Hnw. unfold calculate_workloads, py_floordiv, py_mod.
  rewrite (proj2 (Z.eqb_neq num_workers 0)) by lia. cbn [Py.bind Py.ret].
  set (chunk := n / num_workers). set (extra := n mod num_workers).
  assert (Hchunk : 0 <= chunk) by (apply Z.div_pos; lia).
  assert (Hextra : 0 <= extra) by (apply Z.mod_pos_bound; lia).
  assert (Hsum : n = num_workers * chunk + extra) by (apply Z.div_mod; lia).
  set (k := Z.to_nat (num_workers - 1)).
  assert (Hk : Z.of_nat k = num_workers - 1) by (unfold k; lia).
  clearbody k.
  assert (Hn' : n = Z.of_nat k * chunk + (chunk + extra)) by (rewrite Hk; lia).
  destruct (workload_steps chunk extra num_workers k Hchunk)
    as (ws & Hrun & Hlen & Hcat & Hall); [lia|].
  unfold range_from.
  replace (num_workers + 1 - 1) with (Z.of_nat (S k)) by lia.
  rewrite seqZ_S, foldl_app, Hrun. cbn [foldl workload_step snd].
  rewrite (proj2 (Z.eqb_eq (1 + Z.of_nat k) num_workers)) by lia.
  unfold range_from.
  replace (Z.of_nat k * chunk + (chunk + extra) - Z.of_nat k * chunk)
    with (chunk + extra) by lia.
  eexists. split; [reflexivity|]. split; [rewrite length_app; simpl; lia|].
  split.
  - rewrite concat_app, Hcat. simpl. rewrite app_nil_r.
    transitivity (seqZ 0 (Z.of_nat k * chunk + (chunk + extra))).
    + by rewrite (seqZ_app 0 (Z.of_nat k * chunk) (chunk + extra)) by lia.
    + unfold range. f_equal. lia.
  - intros i l Hl. apply lookup_app_Some in Hl as [Hl|[Hi Hl]].
    + rewrite bool_decide_eq_false_2.
      * by apply (Forall_lookup_1 _ _ _ _ Hall Hl).
      * apply lookup_lt_Some in Hl. lia.
    + rewrite Hlen in *. destruct (i - k)%nat as [|j] eqn:Hj; [|done].
      injection Hl as <-. rewrite bool_decide_eq_true_2 by lia.
      rewrite length_seqZ. lia.
Qed.

Lemma calculate_workloads_chunks_witness :
  exists ws, calculate_workloads 7 3 = inr ws
    /\ length ws = 3%nat /\ concat ws = range 7.
Proof.
  destruct (calculate_workloads_chunks 7 3) as (ws & Hws & Hlen & Hcat & _);
    [lia|lia|].
  exists ws. split; [exact Hws|]. split; [exact Hlen|exact Hcat].
Defined.

End Workloads.

(** ** The partitioning of partition_existing_graph.py *)

Module Ownership.

Import Partition Spec.

Lemma classes_cover (cls : edge -> Z) (num_workers : Z) (l : list edge) :
  (forall e, e ∈ l -> 0 <= cls e < num_workers) ->
  concat ((fun i => filter (fun e => cls e = i) l) <$> range num_workers) ≡ₚ l.
Proof.
  induction l as [|e l IH]; intros Hcls.
  - simpl. induction (range num_workers); simpl; auto.
  - transitivity (e :: concat ((fun i => filter (fun e => cls e = i) l)
                               <$> range num_workers)).
    2: { apply Permutation_skip, IH. intros e' He'. apply Hcls. by right. }
    rewrite <- (PartitionEdges.concat_cons_one
                  (fun i => filter (fun e => cls e = i) l) e (cls e))
      by (apply PartitionEdges.NoDup_range
          || (apply PartitionEdges.elem_of_range, Hcls; by left)).
    match goal with |- ?a ≡ₚ ?b => replace a with b; [done|] end.
    f_equal. apply list_fmap_ext. intros k i _.
    destruct (decide (i = cls e)) as [->|Hne].
    + by rewrite filter_cons_True.
    + rewrite filter_cons_False; [done|congruence].
Qed.

Lemma both_directions_app (l1 l2 : list edge) :
  Generate.both_directions (l1 ++ l2)
  = Generate.both_directions l1 ++ Generate.both_directions l2.
Proof. unfold Generate.both_directions. apply flat_map_app. Qed.

Lemma elem_of_both_directions (l : list edge) (u v : Z) :
  (u, v) ∈ Generate.both_directions l <-> (u, v) ∈ l \/ (v, u) ∈ l.
Proof.
  induction l as [|[a b] l IH]; simpl.
  - rewrite !elem_of_nil. tauto.
  - rewrite !elem_of_cons, IH. split.
    + intros [[= -> ->]|[[= -> ->]|[?|?]]]; tauto.
    + intros [[[= -> ->]|?]|[[= -> ->]|?]]; tauto.
Qed.

Lemma length_both_directions (l : list edge) :
  length (Generate.both_directions l) = (2 * length l)%nat.
Proof. induction l as [|[a b] l IH]; simpl; [done|]. rewrite IH. lia. Qed.

Lemma bucket_append_edge (k i : Z) (e : edge) (p : gmap Z (list edge)) :
  bucket (append_edge k e p) i
  = bucket p i ++ filter (fun _ => k = i) [e].
Proof.
  unfold bucket, append_edge. destruct (decide (k = i)) as [->|Hne].
  - rewrite lookup_insert_eq. simpl. by rewrite filter_cons_True.
  - rewrite lookup_insert_ne by done. rewrite filter_cons_False by done.
    by rewrite filter_nil, app_nil_r.
Qed.

Lemma both_directions_cons (u v : Z) (l : list edge) :
  Generate.both_directions ((u, v) :: l)
  = (u, v) :: (v, u) :: Generate.both_directions l.
Proof. reflexivity. Qed.

Lemma filter_owner_cons (num_workers i a b : Z) (l : list edge) :
  filter (fun e => owner num_workers e = i) ((a, b) :: l)
  = filter (fun _ => a mod num_workers = i) [(a, b)]
    ++ filter (fun e => owner num_workers e = i) l.
Proof.
  destruct (decide (a mod num_workers = i)) as [Ha|Ha].
  - rewrite !filter_cons_True by done. by rewrite filter_nil.
  - rewrite !filter_cons_False by done. by rewrite filter_nil.
Qed.

Lemma place_neighbors_buckets (num_workers u : Z) (vs : list Z)
    (p0 : gmap Z (list edge)) :
  num_workers <> 0 ->
  exists p, foldl (place_neighbor num_workers u (u mod num_workers)) (inr p0) vs = inr p
    /\ forall i, bucket p i
         = bucket p0 i
           ++ filter (fun e => owner num_workers e = i)
                (Generate.both_directions ((fun v => (u, v)) <$> vs)).
Proof.
  intros Hnw. revert p0. induction vs as [|v vs IH]; intros p0.
  - exists p0. split; [done|]. intros i. simpl. by rewrite app_nil_r.
  - cbn [foldl]. unfold place_neighbor at 2. cbn [Py.bind].
    rewrite Publisher.py_mod_nonzero by done. cbn [Py.bind]. unfold Py.ret.
    destruct (IH (append_edge (v mod num_workers) (v, u)
                    (append_edge (u mod num_workers) (u, v) p0)))
      as (p & Hp & Hbuckets).
    exists p. split; [exact Hp|]. intros i.
    rewrite Hbuckets, !bucket_append_edge, fmap_cons.
    rewrite both_directions_cons, !filter_owner_cons.
    by rewrite <- !app_assoc.
Qed.

Lemma place_vertices_buckets (num_workers : Z) (items : list (Z * gset Z))
    (p0 : gmap Z (list edge)) :
  num_workers <> 0 ->
  exists p, foldl (place_vertex num_workers) (inr p0) items = inr p
    /\ forall i, bucket p i
         = bucket p0 i
           ++ filter (fun e => owner num_workers e = i)
                (Generate.both_directions
                   (items ≫= (fun item => (fun v => (item.1, v)) <$> elements item.2))).
Proof.
  intros Hnw. revert p0. induction items as [|[u ns] items IH]; intros p0.
  - exists p0. split; [done|]. intros i. simpl. by rewrite app_nil_r.
  - cbn [foldl]. unfold place_vertex at 2. cbn [Py.bind fst snd].
    rewrite Publisher.py_mod_nonzero by done. cbn [Py.bind]. unfold Py.ret.
    destruct (place_neighbors_buckets num_workers u (elements ns) p0 Hnw)
      as (p1 & -> & Hp1).
    destruct (IH p1) as (p & Hp & Hbuckets).
    exists p. split; [exact Hp|]. intros i.
    rewrite Hbuckets, Hp1, bind_cons, both_directions_app, filter_app.
    by rewrite <- app_assoc.
Qed.

(** What [partition_graph] puts into the bucket of each worker. *)
Lemma partition_adjacency_buckets (adjacency : gmap Z (gset Z)) (num_workers : Z) :
  num_workers <> 0 ->
  exists p, partition_adjacency adjacency num_workers = inr p
    /\ forall i, bucket p i
         = filter (fun e => owner num_workers e = i)
             (Generate.both_directions (adjacency_edges adjacency)).
Proof.
  intros Hnw. unfold partition_adjacency, Py.ret.
  destruct (place_vertices_buckets num_workers (map_to_list adjacency) ∅ Hnw)
    as (p & Hp & Hbuckets).
  exists p. split; [exact Hp|]. intros i. rewrite Hbuckets.
  unfold bucket at 1. by rewrite lookup_empty.
Qed.

(** X2. For a worker count above zero the partitioning of
    [partition_graph] returns, and an edge [(u, v)] is in the bucket of
    worker [i] exactly when [u % num_workers] is [i] and the adjacency
    dictionary has [v] as a neighbour of [u] or [u] as a neighbour of
    [v]; a bucket that is not empty is that of a worker in
    [0, num_workers). *)
Theorem partition_adjacency_owner (adjacency : gmap Z (gset Z)) (num_workers : Z) :
  0 < num_workers ->
  exists p, partition_adjacency adjacency num_workers = inr p
    /\ (forall i u v, (u, v) ∈ bucket p i <->
          u mod num_workers = i
          /\ (neighbor adjacency u v \/ neighbor adjacency v u))
    /\ (forall i, bucket p i <> [] -> 0 <= i < num_workers).
Proof.
  intros Hnw.
  destruct (partition_adjacency_buckets adjacency num_workers) as (p & Hp & Hb);
    [lia|].
  assert (Hin : forall i u v, (u, v) ∈ bucket p i <->
            u mod num_workers = i
            /\ (neighbor adjacency u v \/ neighbor adjacency v u)).
  { intros i u v. rewrite Hb, list_elem_of_filter, elem_of_both_directions.
    rewrite !Loader.elem_of_adjacency_edges. unfold owner. done. }
  exists p. split; [exact Hp|]. split; [exact Hin|].
  intros i Hne. destruct (bucket p i) as [|[u v] b] eqn:Hbucket; [done|].
  assert (Huv : (u, v) ∈ bucket p i) by (rewrite Hbucket; by left).
  apply Hin in Huv as [<- _]. apply Z.mod_pos_bound. lia.
Qed.

Lemma partition_adjacency_owner_witness :
  exists p, partition_adjacency {[5 := {[7]}]} 3 = inr p
    /\ (5, 7) ∈ bucket p 2 /\ (7, 5) ∈ bucket p 1.
Proof.
  destruct (partition_adjacency_owner {[5 := {[7]}]} 3) as (p & Hp & Hin & _);
    [lia|].
  assert (Hn : neighbor {[5 := {[7]}]} 5 7).
  { exists {[7]}. split; [reflexivity|]. by apply elem_of_singleton. }
  exists p. split; [exact Hp|]. split; apply Hin.
  - split; [reflexivity|]. by left.
  - split; [reflexivity|]. by right.
Defined.

(** X3. Nothing is lost and nothing is made up: the buckets of the
    workers [0 .. num_workers-1] together are the edges of the adjacency
    dictionary, each with its mirror, so twice as many. *)
Theorem partition_adjacency_complete (adjacency : gmap Z (gset Z)) (num_workers : Z) :
  0 < num_workers ->
  exists p, partition_adjacency adjacency num_workers = inr p
    /\ all_buckets p num_workers
       ≡ₚ Generate.both_directions (adjacency_edges adjacency)
    /\ length (all_buckets p num_workers)
       = (2 * length (adjacency_edges adjacency))%nat.
Proof.
  intros Hnw.
  destruct (partition_adjacency_buckets adjacency num_workers) as (p & Hp & Hb);
    [lia|].
  assert (Hperm : all_buckets p num_workers
                  ≡ₚ Generate.both_directions (adjacency_edges adjacency)).
  { unfold all_buckets.
    etransitivity;
      [|apply (classes_cover (owner num_workers) num_workers)].
    - match goal with |- ?a ≡ₚ ?b => replace a with b; [done|] end.
      f_equal. apply list_fmap_ext. intros k i _. symmetry. apply Hb.
    - intros e _. apply Z.mod_pos_bound. lia. }
  exists p. split; [exact Hp|]. split; [exact Hperm|].
  rewrite Hperm. apply length_both_directions.
Qed.

Lemma partition_adjacency_complete_witness :
  exists p, partition_adjacency (load_graph scenario_text).1.1 3 = inr p
    /\ length (all_buckets p 3) = 6%nat.
Proof.
  destruct (partition_adjacency_complete (load_graph scenario_text).1.1 3)
    as (p & Hp & _ & Hlen); [lia|].
  exists p. split; [exact Hp|]. rewrite Hlen. reflexivity.
Defined.

Lemma occurrences_cons (e e' : edge) (l : list edge) :
  occurrences e (e' :: l)
  = ((if decide (e' = e) then 1 else 0) + occurrences e l)%nat.
Proof.
  unfold occurrences. rewrite filter_cons. by destruct (decide (e' = e)).
Qed.

Lemma occurrences_both_directions (u v : Z) (l : list edge) :
  occurrences (u, v) (Generate.both_directions l)
  = (occurrences (u, v) l + occurrences (v, u) l)%nat.
Proof.
  induction l as [|[a b] l IH]; [done|].
  rewrite both_directions_cons, !occurrences_cons, IH.
  repeat destruct (decide _); simplify_eq; lia.
Qed.

Lemma occurrences_owned (num_workers : Z) (e : edge) (l : list edge) :
  occurrences e (filter (fun e' => owner num_workers e' = owner num_workers e) l)
  = occurrences e l.
Proof.
  induction l as [|e' l IH]; [done|].
  rewrite filter_cons. destruct (decide (owner num_workers e' = owner num_workers e)).
  - by rewrite !occurrences_cons, IH.
  - rewrite occurrences_cons, IH. destruct (decide (e' = e)); [congruence|done].
Qed.

Lemma if_bool_decide_ext_nat (P Q : Prop) `{Decision P, Decision Q} (a b : nat) :
  (P <-> Q) ->
  (0 + if bool_decide P then a else b)%nat = if bool_decide Q then a else b.
Proof. intros HPQ. by rewrite (bool_decide_ext P Q HPQ). Qed.

Lemma occurrences_NoDup (e : edge) (l : list edge) :
  NoDup l -> occurrences e l = if bool_decide (e ∈ l) then 1%nat else 0%nat.
Proof.
  induction 1 as [|e' l Hnotin Hnd IH]; [done|].
  rewrite occurrences_cons, IH. destruct (decide (e' = e)) as [->|Hne].
  - rewrite bool_decide_eq_false_2 by done.
    rewrite bool_decide_eq_true_2; [done|by left].
  - apply if_bool_decide_ext_nat. rewrite elem_of_cons.
    split; [by right|]. intros [->|?]; [done|done].
Qed.

(** X4. [partition_graph] mirrors every edge of the adjacency
    dictionary, whether or not the mirror is in the dictionary too: an
    edge [(u, v)] whose mirror [(v, u)] was also read from the file
    (a self-loop is its own mirror) is twice in the bucket of its
    worker, an edge read in one direction only is there once. *)
Theorem partition_adjacency_both_ways (adjacency : gmap Z (gset Z)) (num_workers : Z) :
  0 < num_workers ->
  exists p, partition_adjacency adjacency num_workers = inr p
    /\ forall u v, neighbor adjacency u v ->
         (neighbor adjacency v u ->
            occurrences (u, v) (bucket p (u mod num_workers)) = 2%nat)
         /\ (~ neighbor adjacency v u ->
               occurrences (u, v) (bucket p (u mod num_workers)) = 1%nat).
Proof.
  intros Hnw.
  destruct (partition_adjacency_buckets adjacency num_workers) as (p & Hp & Hb);
    [lia|].
  exists p. split; [exact Hp|]. intros u v Huv.
  assert (Hcount : occurrences (u, v) (bucket p (u mod num_workers))
            = ((if bool_decide ((u, v) ∈ adjacency_edges adjacency) then 1 else 0)
               + (if bool_decide ((v, u) ∈ adjacency_edges adjacency) then 1 else 0))%nat).
  { rewrite Hb.
    change (u mod num_workers) with (owner num_workers (u, v)).
    rewrite occurrences_owned, occurrences_both_directions.
    by rewrite !occurrences_NoDup by apply Loader.NoDup_adjacency_edges. }
  apply Loader.elem_of_adjacency_edges in Huv.
  rewrite Hcount, (bool_decide_eq_true_2 _ Huv). split; intros Hvu.
  - apply Loader.elem_of_adjacency_edges in Hvu.
    by rewrite (bool_decide_eq_true_2 _ Hvu).
  - rewrite bool_decide_eq_false_2; [done|].
    by rewrite Loader.elem_of_adjacency_edges.
Qed.

Lemma partition_adjacency_both_ways_witness :
  exists p, partition_adjacency {[1 := {[2]}; 2 := {[1]}]} 2 = inr p
    /\ occurrences (1, 2) (bucket p 1) = 2%nat.
Proof.
  destruct (partition_adjacency_both_ways {[1 := {[2]}; 2 := {[1]}]} 2)
    as (p & Hp & Htwice); [lia|].
  exists p. split; [exact Hp|].
  apply (Htwice 1 2).
  - exists {[2]}. split; [reflexivity|]. by apply elem_of_singleton.
  - exists {[1]}. split; [reflexivity|]. by apply elem_of_singleton.
Defined.

End Ownership.

(** ** The worker labels of the two scripts *)

Module Labels.

Import Generate Partition Spec Text.

Lemma split_on_last_segment (sep : ascii) (s : str) :
  exists init seg, split_on sep s = init ++ [seg]
    /\ Forall (fun c => chr_eqb c sep = false) seg.
Proof.
  induction s as [|c s IH].
  - exists [], []. by split.
  - destruct IH as (init & seg & Hsplit & Hseg). cbn [split_on].
    destruct (chr_eqb c sep) eqn:Hc.
    + exists ([] :: init), seg. rewrite Hsplit. by split.
    + rewrite Hsplit. destruct init as [|h init]; cbn [app].
      * exists [], (c :: seg). split; [done|]. by constructor.
      * exists ((c :: h) :: init), seg. by split.
Qed.

Lemma split_on_plain (sep : ascii) (s : str) :
  Forall (fun c => chr_eqb c sep = false) s -> split_on sep s = [s].
Proof.
  induction s as [|c s IH]; intros Hs; [done|].
  apply Forall_cons in Hs as [Hc Hs]. cbn [split_on].
  by rewrite Hc, IH.
Qed.

Lemma split_on_app_sep (sep : ascii) (a b : str) :
  Forall (fun c => chr_eqb c sep = false) a ->
  split_on sep (a ++ sep :: b) = a :: split_on sep b.
Proof.
  induction a as [|c a IH]; intros Ha.
  - cbn [app split_on]. unfold chr_eqb. by rewrite Ascii.eqb_refl.
  - apply Forall_cons in Ha as [Hc Ha]. cbn [app split_on].
    by rewrite Hc, IH.
Qed.

Lemma Forall_drop_space (P : ascii -> Prop) (s : str) :
  Forall P s -> Forall P (drop_space s).
Proof.
  induction 1 as [|c s Hc Hs IH]; [done|]. cbn [drop_space].
  destruct (is_space c); [done|by constructor].
Qed.

Lemma Forall_strip (P : ascii -> Prop) (s : str) :
  Forall P s -> Forall P (strip s).
Proof.
  intros Hs. unfold strip.
  by apply Forall_rev, Forall_drop_space, Forall_rev, Forall_drop_space.
Qed.

Lemma digit_val_nonneg (c : ascii) : is_digit c = true -> 0 <= digit_val c.
Proof.
  unfold is_digit, digit_val. intros Hd.
  apply andb_true_iff in Hd as [H1 _]. apply Nat.leb_le in H1. lia.
Qed.

Lemma digits_value_nonneg (s : str) (acc : Z) (sep : bool) (m : Z) :
  0 <= acc -> digits_value acc sep s = Some m -> 0 <= m.
Proof.
  revert acc sep. induction s as [|c s IH]; intros acc sep Hacc; cbn [digits_value].
  - destruct sep; [done|]. by intros [= <-].
  - destruct (is_digit c) eqn:Hc.
    + apply IH. pose proof (digit_val_nonneg c Hc). lia.
    + destruct (chr_eqb c "_" && negb sep); [|done]. by apply IH.
Qed.

Lemma int_error (s : str) (e : exn) : int s = inl e -> e = invalid_literal.
Proof.
  unfold int. destruct (strip s) as [|c ds].
  - destruct (digits_value 0 true []); [done|]. by intros [= <-].
  - destruct (chr_eqb c "-"); [|destruct (chr_eqb c "+")];
      destruct (digits_value 0 true _); (done || by intros [= <-]).
Qed.

Lemma int_unsigned_nonneg (s : str) (n : Z) :
  Forall (fun c => chr_eqb c "-" = false) s -> int s = inr n -> 0 <= n.
Proof.
  intros Hs. apply (Forall_strip _ s) in Hs. unfold int.
  destruct (strip s) as [|c ds].
  - destruct (digits_value 0 true []) as [m|] eqn:Hm; [|done].
    intros [= <-]. apply digits_value_nonneg in Hm; lia.
  - apply Forall_cons in Hs as [Hc _]. rewrite Hc.
    destruct (chr_eqb c "+");
      destruct (digits_value 0 true _) as [m|] eqn:Hm; try done;
      intros [= <-]; apply digits_value_nonneg in Hm; lia.
Qed.

(** X5. The index read from a label is never negative, since what
    follows the last ['-'] has no sign of its own, and the only error
    is the [ValueError] of [int]: the label [worker--1] stands for
    worker 1, and neither the [IndexError] clause nor the test
    [0 <= worker_idx] of [assign_vertices] is ever the one that rejects
    a label. *)
Theorem worker_index_never_negative (worker_str : str) :
  (exists w, worker_index worker_str = inr w /\ 0 <= w)
  \/ worker_index worker_str = inl invalid_literal.
Proof.
  unfold worker_index, last_item.
  destruct (split_on_last_segment "-" worker_str) as (init & seg & -> & Hseg).
  rewrite last_snoc. cbn [bind ret].
  destruct (int seg) as [e|w] eqn:Hint.
  - right. by rewrite (int_error seg e Hint).
  - left. exists w. split; [done|]. by apply (int_unsigned_nonneg seg).
Qed.

Lemma digits_no_minus (n : Z) :
  0 <= n -> Forall (fun c => chr_eqb c "-" = false) (digits n).
Proof.
  intros Hn. destruct (digits_value_ok n Hn) as (_ & Hall & _).
  eapply Forall_impl; [exact Hall|]. intros c Hc. by apply digit_not.
Qed.

Lemma int_digits (n : Z) : 0 <= n -> int (digits n) = inr n.
Proof.
  intros Hn. pose proof (int_str_of_int n) as Hint.
  unfold str_of_int in Hint. by rewrite (proj2 (Z.ltb_ge n 0)) in Hint.
Qed.

Lemma worker_index_worker_label (k : Z) :
  worker_index (worker_label k) = inr (Z.abs k).
Proof.
  unfold worker_index, worker_label.
  change (lit "worker-" ++ str_of_int k)
    with (lit "worker" ++ "-"%char :: str_of_int k).
  rewrite split_on_app_sep by (by repeat constructor).
  unfold str_of_int. destruct (k <? 0) eqn:Hk.
  - apply Z.ltb_lt in Hk.
    change (split_on "-" ("-"%char :: digits (- k)))
      with ([] :: split_on "-" (digits (- k))).
    rewrite split_on_plain by (apply digits_no_minus; lia).
    cbn [last_item last bind ret]. rewrite int_digits by lia.
    f_equal. lia.
  - apply Z.ltb_ge in Hk.
    rewrite split_on_plain by (by apply digits_no_minus).
    cbn [last_item last bind ret]. rewrite int_digits by lia.
    f_equal. lia.
Qed.

(** X6. The labels of one script read by the other: the label
    [partition_graph] writes for worker [k] is read by the resolver of
    the generator as worker [|k|], so as [k] itself when [k] is not
    negative; for a worker count above zero every label published is a
    valid override that names the same worker. *)
Theorem worker_label_read_back (num_workers : Z) :
  (forall k, worker_index (worker_label k) = inr (Z.abs k))
  /\ (0 < num_workers ->
      forall v, valid_override num_workers (worker_label (v mod num_workers))
                = Some (v mod num_workers)).
Proof.
  split; [apply worker_index_worker_label|].
  intros Hnw v. unfold valid_override. rewrite worker_index_worker_label.
  pose proof (Z.mod_pos_bound v num_workers Hnw) as Hmod.
  rewrite Z.abs_eq by lia. by rewrite bool_decide_eq_true_2.
Qed.

Lemma worker_label_read_back_witness :
  valid_override 3 (worker_label (7 mod 3)) = Some (7 mod 3).
Proof.
  destruct (worker_label_read_back 3) as [_ Hvalid]. apply Hvalid. lia.
Defined.

Lemma str_of_int_inj (a b : Z) : str_of_int a = str_of_int b -> a = b.
Proof.
  intros Hab. pose proof (int_str_of_int a) as Ha.
  rewrite Hab, int_str_of_int in Ha. by injection Ha.
Qed.

Lemma label_vertices (num_workers : Z) (ks : list Z) (va0 : gmap str str) :
  num_workers <> 0 ->
  exists va, foldl (label_vertex num_workers) (inr va0) ks = inr va
    /\ (forall v, v ∈ ks ->
          va !! str_of_int v = Some (worker_label (v mod num_workers)))
    /\ (forall key, (forall v, v ∈ ks -> key <> str_of_int v) ->
          va !! key = va0 !! key).
Proof.
  intros Hnw. revert va0. induction ks as [|v ks IH]; intros va0.
  - exists va0. split; [done|]. split; [|done].
    intros v Hv. by apply elem_of_nil in Hv.
  - cbn [foldl]. unfold label_vertex at 2. cbn [Py.bind].
    rewrite Publisher.py_mod_nonzero by done. cbn [Py.bind]. unfold Py.ret.
    destruct (IH (<[str_of_int v := worker_label (v mod num_workers)]> va0))
      as (va & Hva & Hin & Hout).
    exists va. split; [exact Hva|]. split.
    + intros v' Hv'. destruct (decide (v' ∈ ks)) as [Hks|Hks]; [by apply Hin|].
      apply elem_of_cons in Hv' as [->|?]; [|done].
      rewrite Hout; [apply lookup_insert_eq|].
      intros v' Hv' Heq. apply str_of_int_inj in Heq. by subst.
    + intros key Hkey. rewrite Hout.
      * apply lookup_insert_ne. intros Heq. apply (Hkey v); [by left|done].
      * intros v' Hv'. apply Hkey. by right.
Qed.

(** X7. For a worker count that is not zero, the assignment
    [partition_graph] builds for the configuration has, for each vertex
    [v] of [0, graph_size), the key [str(v)] with the label of worker
    [v % num_workers], and no other key: it has [graph_size] entries
    (none for a negative size). *)
Theorem generate_vertex_assignment_entries (graph_size num_workers : Z) :
  num_workers <> 0 ->
  exists va, generate_vertex_assignment graph_size num_workers = inr va
    /\ (forall v, 0 <= v < graph_size ->
          va !! str_of_int v = Some (worker_label (v mod num_workers)))
    /\ (forall key, is_Some (va !! key) ->
          exists v, 0 <= v < graph_size /\ key = str_of_int v)
    /\ size va = Z.to_nat graph_size.
Proof.
  intros Hnw. unfold generate_vertex_assignment, Py.ret.
  destruct (label_vertices num_workers (range graph_size) ∅ Hnw)
    as (va & Hva & Hin & Hout).
  assert (Hkeys : forall key, is_Some (va !! key) <->
            key ∈ str_of_int <$> range graph_size).
  { intros key. split.
    - intros Hsome.
      destruct (decide (key ∈ str_of_int <$> range graph_size)) as [|Hno]; [done|].
      rewrite Hout, lookup_empty in Hsome; [by destruct Hsome|].
      intros v Hv ->. apply Hno. apply list_elem_of_fmap. by exists v.
    - intros (v & -> & Hv)%list_elem_of_fmap. rewrite Hin by done. by eexists. }
  exists va. split; [exact Hva|]. split; [|split].
  - intros v Hv. apply Hin. by apply PartitionEdges.elem_of_range.
  - intros key Hsome. apply Hkeys in Hsome.
    apply list_elem_of_fmap in Hsome as (v & -> & Hv).
    exists v. split; [by apply PartitionEdges.elem_of_range|done].
  - rewrite <- size_dom.
    assert (Hdom : dom va = list_to_set (str_of_int <$> range graph_size)).
    { apply set_eq. intros key.
      rewrite elem_of_dom, elem_of_list_to_set. apply Hkeys. }
    rewrite Hdom, size_list_to_set.
    + rewrite length_fmap. unfold range. by rewrite length_seqZ.
    + apply NoDup_fmap_2; [|apply PartitionEdges.NoDup_range].
      intros a b. apply str_of_int_inj.
Qed.

Lemma generate_vertex_assignment_entries_witness :
  exists va, generate_vertex_assignment 4 3 = inr va
    /\ va !! lit "3" = Some (lit "worker-0")
    /\ size va = 4%nat.
Proof.
  destruct (generate_vertex_assignment_entries 4 3) as (va & Hva & Hin & _ & Hsize);
    [lia|].
  exists va. split; [exact Hva|]. split; [|exact Hsize].
  apply (Hin 3). lia.
Defined.

End Labels.

(** ** From the resolver to the partitioner in generate_graph.py *)

Module Pipeline.

Import Generate Spec.

Lemma place_edge_raised (va : gmap Z Z) (e : exn) (edges : list edge) :
  foldl (place_edge va) (inl e) edges = inl e.
Proof. induction edges as [|x edges IH]; simpl; [done|apply IH]. Qed.

Lemma placeable_dec (va : gmap Z Z) (num_workers : Z) (e : edge) :
  placeable va num_workers e \/ ~ placeable va num_workers e.
Proof.
  unfold placeable. destruct (va !! e.1) as [w|] eqn:Hw.
  - destruct (decide (0 <= w < num_workers)) as [Hr|Hr].
    + left. by exists w.
    + right. intros (w' & [= <-] & ?). done.
  - right. by intros (w' & [=] & _).
Qed.

Lemma partition_edges_outcome (edges : list edge) (va : gmap Z Z) (num_workers : Z) :
  (Forall (placeable va num_workers) edges
   /\ exists p, partition_edges edges va num_workers = inr p)
  \/ (Exists (fun e => ~ placeable va num_workers e) edges
      /\ partition_edges edges va num_workers = inl KeyError).
Proof.
  induction edges as [|e edges IH] using rev_ind.
  - left. split; [constructor|]. by eexists.
  - unfold partition_edges in *. rewrite foldl_app. cbn [foldl].
    destruct IH as [[Hall [p Hp]]|[Hex Hraise]].
    + destruct (PartitionEdges.partition_edges_lookup edges va num_workers)
        as (p' & Hp' & Hlook).
      { intros e' He'. by apply (proj1 (Forall_forall _ _) Hall). }
      unfold partition_edges in Hp'. rewrite Hp'. unfold place_edge. cbn [bind].
      destruct (placeable_dec va num_workers e) as [(w & Hw & Hr)|Hbad].
      * left. split.
        { apply Forall_app. split; [done|]. constructor; [|done]. by exists w. }
        rewrite Hw, Hlook, bool_decide_eq_true_2 by done. by eexists.
      * right. split.
        { apply Exists_app. right. by constructor. }
        destruct (va !! e.1) as [w|] eqn:Hw; [|done].
        rewrite Hlook. rewrite bool_decide_eq_false_2; [done|].
        intros Hr. apply Hbad. by exists w.
    + right. split; [apply Exists_app; by left|].
      by rewrite Hraise.
Qed.

(** X8. [partition_edges] raises nothing but [KeyError], and raises it
    exactly when some edge has a source vertex that the assignment does
    not map to one of the workers [0 .. num_workers-1]: a vertex without
    assignment, or one assigned to a worker that has no bucket. *)
Theorem partition_edges_key_error (edges : list edge) (va : gmap Z Z)
    (num_workers : Z) :
  (partition_edges edges va num_workers = inl KeyError
   <-> exists e, e ∈ edges /\ ~ placeable va num_workers e)
  /\ (forall x, partition_edges edges va num_workers = inl x -> x = KeyError).
Proof.
  destruct (partition_edges_outcome edges va num_workers)
    as [[Hall [p Hp]]|[Hex Hraise]].
  - split.
    + split; [by rewrite Hp|].
      intros (e & He & Hbad). exfalso. apply Hbad.
      by apply (proj1 (Forall_forall _ _) Hall).
    + intros x Hx. by rewrite Hp in Hx.
  - split.
    + split; [|done]. intros _. by apply Exists_exists in Hex.
    + intros x Hx. rewrite Hraise in Hx. by injection Hx.
Qed.

(** X9. The resolver and the partitioner fit: for a worker count above
    zero, whatever the overrides, [assign_vertices] returns an
    assignment all of whose values are worker indices in
    [0, num_workers), and [partition_edges] with this assignment returns
    for every list of edges whose source vertices are in
    [0, num_vertices). *)
Theorem assignment_feeds_partitioner (num_vertices num_workers : Z)
    (custom : option (gmap Z str)) (edges : list edge) :
  0 < num_workers ->
  (forall u v, (u, v) ∈ edges -> 0 <= u < num_vertices) ->
  exists a p, assign_vertices num_vertices num_workers custom = inr a
    /\ (forall k w, a !! k = Some w -> 0 <= w < num_workers)
    /\ partition_edges edges a num_workers = inr p.
Proof.
  intros Hnw Hedges.
  destruct (Resolver.assign_vertices_lookup num_vertices num_workers custom)
    as (a & Ha & Hlook); [lia|].
  assert (Hvalues : forall k w, a !! k = Some w -> 0 <= w < num_workers).
  { intros k w. rewrite Hlook.
    destruct (override custom k ≫= valid_override num_workers) as [w'|] eqn:Hov.
    - intros [= <-]. destruct (override custom k) as [label|]; [|done].
      simpl in Hov. unfold valid_override in Hov.
      destruct (worker_index label); [done|].
      case_bool_decide; [|done]. by injection Hov as <-.
    - case_bool_decide; [|done]. intros [= <-].
      apply Z.mod_pos_bound. lia. }
  destruct (PartitionEdges.partition_edges_lookup edges a num_workers)
    as (p & Hp & _).
  { intros [u v] He. specialize (Hedges u v He). cbn [fst].
    destruct (a !! u) as [w|] eqn:Hu.
    - exists w. split; [done|]. by apply (Hvalues u).
    - rewrite Hlook in Hu.
      destruct (override custom u ≫= valid_override num_workers); [done|].
      by rewrite bool_decide_eq_true_2 in Hu. }
  by exists a, p.
Qed.

Lemma assignment_feeds_partitioner_witness :
  exists a p, assign_vertices 3 2 (Some {[1 := lit "worker-0"]}) = inr a
    /\ (forall k w, a !! k = Some w -> 0 <= w < 2)
    /\ partition_edges [(0, 1); (1, 0); (2, 1)] a 2 = inr p.
Proof.
  apply assignment_feeds_partitioner; [lia|].
  intros u v Huv.
  repeat (apply elem_of_cons in Huv as [[= -> ->]|Huv]; [lia|]).
  by apply elem_of_nil in Huv.
Defined.

End Pipeline.

(** ** The list of edges of a seeded generation *)

Module Generated.

Import Random Generate Spec.

Section SeededSource.

Context {R : Source}.
Hypothesis draws_in_range : in_range R.

Variables num_vertices num_edges seed_value : Z.
Hypothesis fair_once_seeded : fair num_vertices (seed seed_value).
Hypothesis two_vertices : 2 <= num_vertices.
Hypothesis some_edges : 0 <= num_edges.
Hypothesis within_capacity : num_edges <= num_vertices * (num_vertices - 1) / 2.

(** The seeded run of the sampling loop, with fuel enough. *)
Lemma seeded_run :
  exists (fuel0 : nat) (s : gset edge) (g' : state),
    (forall fuel g, (fuel0 <= fuel)%nat ->
       generate_edge_set fuel num_vertices num_edges (Some seed_value) g
       = Some (inr s, g'))
    /\ s ⊆ canonical_pairs num_vertices
    /\ Z.of_nat (size s) = num_edges.
Proof.
  assert (Hnv : 0 < num_vertices) by lia.
  destruct (Generator.sample_edges_ends draws_in_range num_vertices num_edges Hnv
              (seed seed_value) fair_once_seeded within_capacity
              (Z.to_nat num_edges) O ∅)
    as (fuel0 & s & g' & Hrun).
  { apply empty_subseteq. }
  { rewrite size_empty. lia. }
  change (state_after num_vertices 0 (seed seed_value)) with (seed seed_value) in Hrun.
  destruct (Generator.sample_edges_result draws_in_range num_vertices num_edges Hnv
              fuel0 ∅ s (seed seed_value) g') as [Hsub Hsize];
    [apply empty_subseteq|rewrite size_empty; lia|done|].
  exists fuel0, s, g'. split; [|done].
  intros fuel g Hfuel. unfold generate_edge_set.
  rewrite bool_decide_eq_false_2 by lia.
  by apply (Generator.sample_edges_more_fuel num_vertices num_edges Hnv fuel0).
Qed.

End SeededSource.

Lemma both_directions_bind (l : list edge) :
  both_directions l = l ≫= (fun e => [(e.1, e.2); (e.2, e.1)]).
Proof.
  induction l as [|[u v] l IH]; [done|].
  rewrite bind_cons, <- IH. reflexivity.
Qed.

Lemma NoDup_both_directions (num_vertices : Z) (l : list edge) :
  NoDup l -> (forall e, e ∈ l -> e ∈ canonical_pairs num_vertices) ->
  NoDup (both_directions l).
Proof.
  intros Hnd Hcanon. rewrite both_directions_bind. apply NoDup_bind; [| |done].
  - intros [a b] [c d] y H1 H2 Hy1 Hy2.
    apply Hcanon, Generator.elem_of_canonical_pairs in H1.
    apply Hcanon, Generator.elem_of_canonical_pairs in H2.
    cbn [fst snd] in Hy1, Hy2.
    apply elem_of_cons in Hy1 as [->|Hy1];
      [|apply list_elem_of_singleton in Hy1 as ->];
      (apply elem_of_cons in Hy2 as [[= ? ?]|Hy2];
       [|apply list_elem_of_singleton in Hy2 as [= ? ?]]);
      subst; (done || lia).
  - intros [a b] He. apply Hcanon, Generator.elem_of_canonical_pairs in He.
    cbn [fst snd]. apply NoDup_cons. split; [|apply NoDup_singleton].
    intros [= ? ?]%list_elem_of_singleton. lia.
Qed.

(** X10. The list a seeded generation returns (for at least two
    vertices, an edge count between 0 and the capacity, and a generator
    whose draws are in range and that goes on to draw every pair): it
    has [2 * num_edges] edges, no edge twice, and with every edge
    [(u, v)] its mirror [(v, u)]; no edge is a self-loop and all
    vertices are in [0, num_vertices). *)
Theorem generated_edges_mirrored {R : Source} (num_vertices num_edges seed_value : Z) :
  in_range R ->
  fair num_vertices (seed seed_value) ->
  2 <= num_vertices ->
  0 <= num_edges ->
  num_edges <= num_vertices * (num_vertices - 1) / 2 ->
  exists (fuel0 : nat) (edges : list edge) (g' : state),
    (forall fuel g, (fuel0 <= fuel)%nat ->
       generate_random_graph fuel num_vertices num_edges (Some seed_value) g
       = Some (inr edges, g'))
    /\ Z.of_nat (length edges) = 2 * num_edges
    /\ NoDup edges
    /\ (forall u v, (u, v) ∈ edges ->
          (v, u) ∈ edges /\ u <> v
          /\ 0 <= u < num_vertices /\ 0 <= v < num_vertices).
Proof.
  intros Hrange Hfair Hnv Hne Hcap.
  destruct (seeded_run Hrange num_vertices num_edges seed_value Hfair Hnv Hne Hcap)
    as (fuel0 & s & g' & Hgen & Hsub & Hsize).
  exists fuel0, (both_directions (elements s)), g'. split; [|split; [|split]].
  - intros fuel g Hfuel. unfold generate_random_graph. by rewrite Hgen.
  - rewrite Ownership.length_both_directions.
    change (length (elements s)) with (size s). lia.
  - apply (NoDup_both_directions num_vertices); [apply NoDup_elements|].
    intros e He. apply Hsub. by apply elem_of_elements.
  - intros u v Huv. apply Ownership.elem_of_both_directions in Huv.
    split.
    { apply Ownership.elem_of_both_directions. tauto. }
    destruct Huv as [Huv|Huv];
      apply elem_of_elements, Hsub, Generator.elem_of_canonical_pairs in Huv; lia.
Qed.

Lemma generated_edges_mirrored_witness :
  exists (fuel0 : nat) (edges : list edge) (g' : nat),
    (forall fuel g, (fuel0 <= fuel)%nat ->
       generate_random_graph (R := counting) fuel 4 3 (Some 7) g
       = Some (inr edges, g'))
    /\ Z.of_nat (length edges) = 2 * 3
    /\ NoDup edges
    /\ (forall u v, (u, v) ∈ edges ->
          (v, u) ∈ edges /\ u <> v /\ 0 <= u < 4 /\ 0 <= v < 4).
Proof.
  apply (generated_edges_mirrored (R := counting) 4 3 7).
  - exact Generator.counting_in_range.
  - apply Generator.counting_fair. lia.
  - lia.
  - lia.
  - vm_compute. discriminate.
Defined.

(** X11. Asked for as many edges as there are pairs of vertices, the
    seeded generation still ends (the generator going on to draw every
    pair), and its set is the complete graph: every pair [(a, b)] with
    [0 <= a < b < num_vertices]. *)
Theorem complete_graph_at_capacity {R : Source} (num_vertices seed_value : Z) :
  in_range R ->
  fair num_vertices (seed seed_value) ->
  2 <= num_vertices ->
  exists (fuel0 : nat) (edges_set : gset edge) (g' : state),
    (forall fuel g, (fuel0 <= fuel)%nat ->
       generate_edge_set fuel num_vertices
         (num_vertices * (num_vertices - 1) / 2) (Some seed_value) g
       = Some (inr edges_set, g'))
    /\ forall a b, (a, b) ∈ edges_set <-> 0 <= a /\ a < b /\ b < num_vertices.
Proof.
  intros Hrange Hfair Hnv.
  destruct (seeded_run Hrange num_vertices (num_vertices * (num_vertices - 1) / 2)
              seed_value Hfair Hnv) as (fuel0 & s & g' & Hgen & Hsub & Hsize).
  { apply Z.div_pos; nia. }
  { lia. }
  exists fuel0, s, g'. split; [exact Hgen|].
  assert (Hall : s = canonical_pairs num_vertices).
  { apply set_subseteq_size_eq; [done|].
    apply Nat2Z.inj_le. rewrite Hsize, Generator.size_canonical_pairs; lia. }
  intros a b. rewrite Hall. apply Generator.elem_of_canonical_pairs.
Qed.

Lemma complete_graph_at_capacity_witness :
  exists (fuel0 : nat) (edges_set : gset edge) (g' : nat),
    (forall fuel g, (fuel0 <= fuel)%nat ->
       generate_edge_set (R := counting) fuel 3 (3 * (3 - 1) / 2) (Some 1) g
       = Some (inr edges_set, g'))
    /\ forall a b, (a, b) ∈ edges_set <-> 0 <= a /\ a < b /\ b < 3.
Proof.
  apply (complete_graph_at_capacity (R := counting) 3 1).
  - exact Generator.counting_in_range.
  - apply Generator.counting_fair. lia.
  - lia.
Defined.

End Generated.

(** ** The default edge count of generate_graph.py *)

Module Defaults.

Import Random Generate GenerateMain IO Spec.

Lemma default_above_capacity (n : Z) :
  n * 2 > n * (n - 1) / 2 <-> 1 <= n <= 4.
Proof.
  split.
  - intros Hgt. destruct (decide (n <= 0)) as [Hneg|Hpos].
    + assert (0 <= n * (n - 1) / 2) by (apply Z.div_pos; nia). lia.
    + destruct (decide (n <= 4)) as [|Hbig]; [lia|]. exfalso.
      assert (n * 2 <= n * (n - 1) / 2); [|lia].
      apply Z.div_le_lower_bound; nia.
  - intros Hn.
    assert (Hcases : n = 1 \/ n = 2 \/ n = 3 \/ n = 4) by lia.
    destruct Hcases as [-> | [-> | [-> | ->]]]; by vm_compute.
Qed.

(** X12. Without a number of edges on the command line (none, or 0,
    which counts as none), [main] asks for twice as many edges as
    vertices. That is above the capacity exactly for 1 to 4 vertices,
    and [main] then ends with the error of the capacity check without
    writing a file, whatever the configuration, the seed and the state
    of the generator. *)
Theorem default_edge_count_too_many {R : Source} (fuel : nat)
    (config : configuration) (args : arguments) (g : state) (w : world message) :
  truthy_int (args_num_edges args) = None ->
  let n := resolve_num_vertices config args in
  resolve_num_edges n args = n * 2
  /\ (n * 2 > n * (n - 1) / 2 <-> 1 <= n <= 4)
  /\ (1 <= n <= 4 ->
      exists g' w',
        main fuel config args g w
        = Some (inl (ValueError (capacity_message (n * 2) n (n * (n - 1) / 2))),
                g', w')
        /\ files w' = files w).
Proof.
  intros Hnone n.
  assert (Hedges : resolve_num_edges n args = n * 2).
  { unfold resolve_num_edges. by rewrite Hnone. }
  split; [exact Hedges|]. split; [apply default_above_capacity|].
  intros Hn. apply default_above_capacity in Hn.
  unfold main. fold n. rewrite Hedges.
  unfold generate_random_graph, generate_edge_set.
  rewrite bool_decide_eq_true_2 by done.
  eexists _, _. split; reflexivity.
Qed.

Lemma default_edge_count_too_many_witness :
  exists g' w',
    main (R := counting) 0 (Configuration None None (Some 4) [])
         (Args None (Some 0) None (lit "data") None) 0%nat (World ∅ [])
    = Some (inl (ValueError (capacity_message 8 4 6)), g', w')
    /\ files w' = ∅.
Proof.
  destruct (default_edge_count_too_many (R := counting) 0
              (Configuration None None (Some 4) [])
              (Args None (Some 0) None (lit "data") None) 0%nat (World ∅ []))
    as (_ & _ & Hfail); [reflexivity|].
  apply Hfail. vm_compute. split; discriminate.
Defined.

End Defaults.

(** ** Reading the lines [write_edge_file] wrote *)

Module WrittenLines.

Import Generate Partition Spec.

(** X13. The file written for a list of edges has one line per edge, in
    the order of the list, and the loader reads each line as a valid
    line that holds its edge, negative vertices included; so the loop
    of the loader on the file is the loop on the list. *)
Theorem written_lines_read_back (edges : list edge) :
  Forall2 (fun line e => valid_line line e.1 e.2)
          (file_lines (edge_file_text edges)) edges
  /\ forall acc, foldl load_line acc (file_lines (edge_file_text edges))
                 = foldl read_edge acc edges.
Proof.
  split.
  - rewrite Loader.file_lines_written. apply Forall2_fmap_l, Forall_Forall2_diag.
    apply Forall_forall. intros [u v] _. apply Loader.line_edge_valid.
    apply Loader.line_edge_edge_line.
  - intros acc.
    by rewrite Loader.load_lines_edges, Loader.file_lines_written,
      Loader.omap_line_edge_written.
Qed.

End WrittenLines.

(** ** Publishing twice *)

Module Republish.

Import Partition Spec.

(** X14. Publishing replaces, it does not merge: on a document that is
    a mapping whose [worker_config] is absent or a mapping, an update
    after an update gives the document that the second update alone
    gives, so no entry of an earlier assignment is left. *)
Theorem update_config_overwrites (d : gmap str pyval) (va1 va2 : gmap str str)
    (n1 n2 : Z) :
  (d !! lit "worker_config" = None
   \/ exists wc, d !! lit "worker_config" = Some (PyDict wc)) ->
  exists c1, update_config (PyDict d) va1 n1 = inr c1
    /\ update_config c1 va2 n2 = update_config (PyDict d) va2 n2.
Proof.
  intros Hsection.
  assert (Hinner : forall wc : gmap str pyval,
            <[lit "num_workers" := PyInt n2]>
              (<[lit "vertex_assignment" := PyDict (PyStr <$> va2)]>
                 (<[lit "num_workers" := PyInt n1]>
                    (<[lit "vertex_assignment" := PyDict (PyStr <$> va1)]> wc)))
            = <[lit "num_workers" := PyInt n2]>
                (<[lit "vertex_assignment" := PyDict (PyStr <$> va2)]> wc)).
  { intros wc. apply map_eq. intros k.
    destruct (decide (k = lit "num_workers")) as [->|Hk1].
    { by rewrite !lookup_insert_eq. }
    rewrite !(lookup_insert_ne _ (lit "num_workers")) by done.
    destruct (decide (k = lit "vertex_assignment")) as [->|Hk2].
    { by rewrite !lookup_insert_eq. }
    rewrite !(lookup_insert_ne _ (lit "vertex_assignment")) by done.
    rewrite lookup_insert_ne by done. by rewrite lookup_insert_ne. }
  unfold update_config. destruct Hsection as [Hnone|[wc Hwc]].
  - rewrite Hnone, lookup_insert_eq. eexists. split; [reflexivity|].
    cbn [Py.ret]. rewrite !lookup_insert_eq.
    by rewrite insert_insert_eq, Hinner.
  - rewrite Hwc, Hwc. eexists. split; [reflexivity|].
    cbn [Py.ret]. rewrite !lookup_insert_eq.
    by rewrite insert_insert_eq, Hinner.
Qed.

Lemma update_config_overwrites_witness :
  exists c1,
    update_config (PyDict {[lit "foo" := PyInt 1]}) {[lit "0" := lit "worker-0"]} 1
    = inr c1
    /\ update_config c1 ∅ 2 = update_config (PyDict {[lit "foo" := PyInt 1]}) ∅ 2.
Proof.
  apply update_config_overwrites. left. reflexivity.
Defined.

End Republish.

(** ** The files of a run of partition_existing_graph.py *)

Module Runs.

Import IO Partition Spec.


Section Yaml.

Variable yaml_safe_load : str -> res pyval.
Variable yaml_dump : pyval -> str.



End Yaml.









End Runs.

(** ** The files of a run of generate_graph.py *)

Module GenerateRun.

Import Random Generate GenerateMain IO Spec.

Lemma for_each_print {A} (xs : list A) (f : A -> message) (w : world message) :
  for_each xs (fun x => print (f x)) w
  = (inr tt, World (files w) (printed w ++ (f <$> xs))).
Proof.
  revert w. induction xs as [|x xs IH]; intros w.
  - cbn [for_each fmap list_fmap]. rewrite app_nil_r. by destruct w.
  - cbn [for_each]. unfold IO.bind at 1. unfold print at 1.
    rewrite IH. cbn [files printed]. by rewrite <- app_assoc.
Qed.





(** X20. A worker count that is not positive is not refused by [main]
    either, and shows only after the generation: once the generation
    has returned its edges, a negative count ends [main] in the
    [KeyError] of [partition_edges] as soon as there is an edge, and a
    count of zero with at least one vertex ends it in the
    [ZeroDivisionError] of [assign_vertices]; in both cases no file has
    been written. *)
Theorem main_nonpositive_workers {R : Source} (fuel : nat) (config : configuration)
    (args : arguments) (g g' : state) (w : world message) (edges : list edge) :
  let num_vertices := resolve_num_vertices config args in
  let num_edges := resolve_num_edges num_vertices args in
  let num_workers := default 1 (worker_config_num_workers config) in
  generate_random_graph fuel num_vertices num_edges (args_seed args) g
  = Some (inr edges, g') ->
  (num_workers < 0 -> edges <> [] ->
     exists w', main fuel config args g w = Some (inl KeyError, g', w')
       /\ files w' = files w)
  /\ (num_workers = 0 -> 0 < num_vertices ->
      exists w', main fuel config args g w = Some (inl ZeroDivisionError, g', w')
        /\ files w' = files w).
Proof.
  intros num_vertices num_edges num_workers Hgen.
  set (custom := Some (default ∅ (worker_config_vertex_assignment config))).
  split.
  - intros Hnw Hedges.
    destruct (Resolver.assign_vertices_lookup num_vertices num_workers custom)
      as (a & Ha & _); [lia|].
    assert (Hraise : partition_edges edges a num_workers = inl KeyError).
    { destruct (Pipeline.partition_edges_outcome edges a num_workers)
        as [[Hall _]|[_ Hraise]]; [|done].
      destruct edges as [|e edges']; [done|].
      apply Forall_cons in Hall as [(w0 & _ & Hw0) _]. lia. }
    unfold main. fold num_vertices. fold num_edges. fold num_workers.
    rewrite Hgen. unfold write_partitions. fold num_workers. fold custom.
    unfold IO.bind at 1. unfold IO.bind at 1. unfold print at 1 2.
    cbn [files printed snd].
    unfold IO.bind at 1. unfold print at 1. cbn [files printed].
    unfold IO.bind at 1. unfold lift at 1. rewrite Ha.
    unfold IO.bind at 1. unfold print at 1. cbn [files printed].
    unfold IO.bind at 1. rewrite for_each_print. cbn [files printed].
    unfold IO.bind at 1. unfold lift at 1. rewrite Hraise.
    eexists. split; reflexivity.
  - intros Hnw Hnv.
    assert (Hraise : assign_vertices num_vertices num_workers custom
                     = inl ZeroDivisionError).
    { rewrite Hnw. unfold assign_vertices, custom, Py.ret.
      rewrite Resolver.apply_overrides_none by lia.
      rewrite (Resolver.fill_zero_workers (range num_vertices)).
      unfold range. by rewrite seqZ_cons by lia. }
    unfold main. fold num_vertices. fold num_edges. fold num_workers.
    rewrite Hgen. unfold write_partitions. fold num_workers. fold custom.
    unfold IO.bind at 1. unfold IO.bind at 1. unfold print at 1 2.
    cbn [files printed snd].
    unfold IO.bind at 1. unfold print at 1. cbn [files printed].
    unfold IO.bind at 1. unfold lift at 1. rewrite Hraise.
    eexists. split; reflexivity.
Qed.

Lemma main_nonpositive_workers_witness :
  exists g' w',
    main (R := counting) 20 (Configuration (Some (-1)) None (Some 3) [])
      (Args None (Some 1) (Some 7) (lit "data") None) 0%nat (World ∅ [])
    = Some (inl KeyError, g', w')
    /\ files w' = ∅.
Proof.
  edestruct (main_nonpositive_workers (R := counting) 20
               (Configuration (Some (-1)) None (Some 3) [])
               (Args None (Some 1) (Some 7) (lit "data") None) 0%nat)
    as [Hneg _].
  - vm_compute. reflexivity.
  - destruct Hneg as (w' & Hmain & Hfiles).
    + vm_compute. reflexivity.
    + discriminate.
    + eexists _, w'. split; [exact Hmain|exact Hfiles].
Defined.

End GenerateRun.
